(** * pkg/report: detection and extraction of kernel crash messages

    A shallow embedding of [pkg/report/report.go] (syzkaller) and the
    properties of its scan / match / extract / replace engine.

    Conventions of the embedding:
    - a Go [[]byte] that is only read (console output, a line, a header) is
      a [list byte]; a Go [string] holding console bytes (a title, a
      template) is a [list byte] too, so that [len], indexing and slicing of
      the two coincide as they do in Go;
    - a Go [int] is a [Z]; the sentinel [-1] of [bytes.Index] and of
      [startPos] is kept as it is in the source;
    - a run-time panic (slice bounds, nil dereference, explicit [panic]) is
      the [Panic] constructor of [result];
    - the buffer that [replace] mutates in place lives in a heap of backing
      arrays, and a slice is a window (array, offset, length, capacity) on
      it, so that aliasing between the arguments is part of the model. *)

From Stdlib Require Import ZArith Lia Strings.Byte Strings.String.
From stdpp Require Import base list gmap strings.
From Equations Require Import Equations.

Local Open Scope Z_scope.

(** ** Bytes *)

Abbreviation bytes := (list byte).

#[global] Instance byte_eq_dec : EqDecision byte := Byte.byte_eq_dec.

(** ['\n'] and ['\r']. *)
Definition LF : byte := x0a.
Definition CR : byte := x0d.

(** [len(b)] as a Go [int]. *)
Definition len {A} (b : list A) : Z := Z.of_nat (length b).

(** [b[lo:hi]] and [b[lo:]] for indices already known to be in range. *)
Definition sub (b : bytes) (lo hi : Z) : bytes :=
  take (Z.to_nat (hi - lo)) (drop (Z.to_nat lo) b).

Definition from (b : bytes) (lo : Z) : bytes := drop (Z.to_nat lo) b.

(** [bytes.HasPrefix(s, sep)]. *)
Fixpoint HasPrefix (s sep : bytes) {struct sep} : bool :=
  match sep, s with
  | [], _ => true
  | _ :: _, [] => false
  | c :: sep', d :: s' => if decide (c = d) then HasPrefix s' sep' else false
  end.

(** [bytes.Index(s, sep)]: the index of the first instance of [sep] in [s],
    or [-1]; an empty [sep] is found at index 0.  [Index_at i] is the search
    resumed at offset [i] of the original buffer. *)
Fixpoint Index_at (i : Z) (s sep : bytes) : Z :=
  if HasPrefix s sep then i
  else match s with
       | [] => -1
       | _ :: s' => Index_at (i + 1) s' sep
       end.

Definition Index (s sep : bytes) : Z := Index_at 0 s sep.

(** [bytes.IndexByte(s, c)]. *)
Fixpoint IndexByte_at (i : Z) (s : bytes) (c : byte) : Z :=
  match s with
  | [] => -1
  | d :: s' => if decide (d = c) then i else IndexByte_at (i + 1) s' c
  end.

Definition IndexByte (s : bytes) (c : byte) : Z := IndexByte_at 0 s c.

(** ** Panics *)

Inductive result (A : Type) : Type :=
| Ok (a : A)
| Panic (msg : string).
Arguments Ok {A} a.
Arguments Panic {A} msg.

Definition rbind {A B} (r : result A) (k : A -> result B) : result B :=
  match r with
  | Ok a => k a
  | Panic msg => Panic msg
  end.

Notation "x <- r ;; k" := (rbind r (fun x => k))
  (at level 100, r at next level, right associativity).

(** [b[lo:hi]] with Go's bounds check.  The indices checked here come from
    the regexp library, whose results never exceed [len(b)]; what the check
    catches is the [-1] of a capture group that did not take part in the
    match. *)
Definition slice_checked (b : bytes) (lo hi : Z) : result bytes :=
  if decide (0 <= lo /\ lo <= hi /\ hi <= len b) then Ok (sub b lo hi)
  else Panic "slice bounds out of range".

(** [m[i]] with Go's bounds check. *)
Definition index_checked (m : list Z) (i : nat) : result Z :=
  match m !! i with
  | Some z => Ok z
  | None => Panic "index out of range"
  end.

(** ** Regular expressions

    [*regexp.Regexp] belongs to Go's standard library.  The engine uses two
    of its methods; a compiled pattern is modelled by the one that decides
    both: [FindSubmatchIndex] returns [nil] ([None]) when the pattern
    matches nowhere, and otherwise the index pairs of the leftmost match and
    of its capture groups; [Match] reports whether there is a match. *)

Record Regexp : Type := {
  FindSubmatchIndex : bytes -> option (list Z)
}.

Definition Match (re : Regexp) (b : bytes) : bool :=
  match FindSubmatchIndex re b with
  | Some _ => true
  | None => false
  end.

(** ** Signatures *)

(** [type oopsFormat struct].  [title] and [report] are pointers: [None] is
    [nil], as in the zero value that [extractDescription] returns when no
    format was selected. *)
Record oopsFormat : Type := {
  title : option Regexp;
  report : option Regexp;
  fmt : bytes;
  noStackTrace : bool;
  corrupted : bool
}.

(** [type oops struct].  The pattern lists are built with [compile], which
    never yields [nil]. *)
Record oops : Type := {
  header : bytes;
  formats : list oopsFormat;
  suppressions : list Regexp
}.

(** ** Crash detector *)

(** The two rejection loops of [matchOops]: [true] when some pattern of the
    list matches the line. *)
Fixpoint anyMatch (res : list Regexp) (line : bytes) : bool :=
  match res with
  | [] => false
  | re :: res' => if Match re line then true else anyMatch res' line
  end.

Definition matchOops (line : bytes) (o : oops) (ignores : list Regexp) : Z :=
  let match_ := Index line (header o) in
  if decide (match_ = -1) then -1
  else if anyMatch (suppressions o) line then -1
  else if anyMatch ignores line then -1
  else match_.

(** The inner loop of [containsCrash] over the signatures: [true] stands for
    the [return true] of the source. *)
Fixpoint anyOops (line : bytes) (oopses : list oops) (ignores : list Regexp) : bool :=
  match oopses with
  | [] => false
  | o :: oopses' =>
      if decide (matchOops line o ignores = -1) then anyOops line oopses' ignores
      else true
  end.

(** The end of the line that starts at [pos]: the [next] of the source. *)
Definition lineEnd (output : bytes) (pos : Z) : Z :=
  let next := IndexByte (from output pos) LF in
  if decide (next <> -1) then next + pos else len output.

(** [containsCrash]: the outer loop runs while [pos < len(output)], and
    [pos] strictly increases ([next >= pos]). *)
Equations? containsCrash_from (output : bytes) (oopses : list oops)
    (ignores : list Regexp) (pos : Z) : bool
    by wf (Z.to_nat (len output - pos)) lt :=
  containsCrash_from output oopses ignores pos with decide (pos < len output) => {
    | right _ := false
    | left Hpos :=
        let next := lineEnd output pos in
        if anyOops (sub output pos next) oopses ignores then true
        else containsCrash_from output oopses ignores (next + 1)
    }.
Proof.
  assert (forall s c i, IndexByte_at i s c = -1 \/ i <= IndexByte_at i s c) as Hge.
  { induction s as [|d s IH]; intros c i; simpl; [by left|].
    destruct (decide (d = c)); [right; lia|].
    destruct (IH c (i + 1)) as [->|H]; [by left|right; lia]. }
  subst next. unfold lineEnd, IndexByte.
  destruct (Hge (from output pos) LF 0) as [->|Hnext]; simpl; [lia|].
  destruct (decide _); lia.
Qed.

Definition containsCrash (output : bytes) (oopses : list oops)
    (ignores : list Regexp) : bool :=
  containsCrash_from output oopses ignores 0.

(** ** Lines, as the specification describes them

    The output split at ['\n'], a final partial line included; a buffer that
    ends with ['\n'] (or is empty) has no partial line. *)
Fixpoint lines (s : bytes) : list bytes :=
  match s with
  | [] => []
  | b :: s' =>
      if decide (b = LF) then [] :: lines s'
      else match lines s' with
           | [] => [[b]]
           | l :: ls => (b :: l) :: ls
           end
  end.

(** [line] contains [sep] as a contiguous byte sequence. *)
Definition contains (line sep : bytes) : Prop :=
  exists pre post, line = pre ++ sep ++ post.

(** A line is accepted for a signature: the header is there and no
    suppression or ignore pattern matches. *)
Definition accepted (line : bytes) (o : oops) (ignores : list Regexp) : Prop :=
  contains line (header o)
  /\ (forall re, re ∈ suppressions o -> Match re line = false)
  /\ (forall re, re ∈ ignores -> Match re line = false).


(** ** Crash extractor *)

(** The zero value [oopsFormat{}]. *)
Definition zeroFormat : oopsFormat :=
  {| title := None; report := None; fmt := []; noStackTrace := false;
     corrupted := false |}.

(** The local variables of [extractDescription]: [startPos] and the three
    named results [desc], [report], [format]. *)
Record extractVars : Type := {
  v_startPos : Z;
  v_desc : bytes;
  v_report : bytes;
  v_format : oopsFormat
}.

(** Their values on entry: [startPos := -1], zero values for the results. *)
Definition initVars : extractVars :=
  {| v_startPos := -1; v_desc := []; v_report := []; v_format := zeroFormat |}.

(** [const maxDescLen = 180]. *)
Definition maxDescLen : Z := 180.

(** The captured groups of a match, as strings:
    [for i := 2; i < len(match); i += 2 {
       args = append(args, string(output[match[i]:match[i+1]])) }].
    The argument is [match[2:]]. *)
Fixpoint submatchArgs (output : bytes) (m : list Z) : result (list bytes) :=
  match m with
  | [] => Ok []
  | [_] => Panic "index out of range"
  | lo :: hi :: m' =>
      a <- slice_checked output lo hi ;;
      args <- submatchArgs output m' ;;
      Ok (a :: args)
  end.

Section Extractor.

(** [fmt.Sprintf] applied to a template and string operands: Go's standard
    library, a parameter of the development. *)
Variable Sprintf : bytes -> list bytes -> bytes.

(** One iteration of [for _, f := range oops.formats] (lines 133-149).
    [match[0]] is read by the test or, when the test stops at
    [startPos != -1], by the assignment that follows it: an empty [match]
    panics either way.  [report = output[startPos:]] is the last
    statement that can panic. *)
Definition formatStep (output : bytes) (vars : extractVars) (f : oopsFormat)
    : result extractVars :=
  match title f with
  | None => Panic "nil pointer dereference"
  | Some re =>
      match FindSubmatchIndex re output with
      | None => Ok vars
      | Some match_ =>
          m0 <- index_checked match_ 0 ;;
          if decide (v_startPos vars <> -1 /\ v_startPos vars <= m0) then Ok vars
          else
            args <- submatchArgs output (drop 2 match_) ;;
            rep <- slice_checked output m0 (len output) ;;
            Ok {| v_startPos := m0; v_desc := Sprintf (fmt f) args;
                  v_report := rep; v_format := f |}
      end
  end.

Fixpoint formatLoop (output : bytes) (fs : list oopsFormat) (vars : extractVars)
    : result extractVars :=
  match fs with
  | [] => Ok vars
  | f :: fs' =>
      vars' <- formatStep output vars f ;;
      formatLoop output fs' vars'
  end.

(** [if len(desc) == 0 { ... }] (lines 150-163). *)
Definition headerFallback (output : bytes) (o : oops) (vars : extractVars)
    : result extractVars :=
  if decide (len (v_desc vars) = 0) then
    let pos := Index output (header o) in
    if decide (pos = -1) then Panic "non matching oops"
    else
      let end_ := IndexByte (from output pos) LF in
      let end_ := if decide (end_ = -1) then len output else end_ + pos in
      Ok {| v_startPos := v_startPos vars;
            v_desc := sub output pos end_;
            v_report := from output pos;
            v_format := v_format vars |}
  else Ok vars.

(** The two adjustments of the title (lines 164-171). *)
Definition dropCR (desc : bytes) : bytes :=
  if decide (len desc > 0 /\ desc !! Z.to_nat (len desc - 1) = Some CR)
  then sub desc 0 (len desc - 1)
  else desc.

Definition truncate (desc : bytes) : bytes :=
  if decide (len desc > maxDescLen) then sub desc 0 maxDescLen else desc.

Definition trimTitle (desc : bytes) : bytes := truncate (dropCR desc).

(** Lines 131-163: the variables once a description has been selected,
    by the formats or by the fallback, and before the title is
    adjusted. *)
Definition selectDescription (output : bytes) (o : oops) : result extractVars :=
  vars <- formatLoop output (formats o) initVars ;;
  headerFallback output o vars.

(** [extractDescription] returns [(desc, report, format)]. *)
Definition extractDescription (output : bytes) (o : oops)
    : result (bytes * bytes * oopsFormat) :=
  vars <- selectDescription output o ;;
  Ok (trimTitle (v_desc vars), v_report vars, v_format vars).

End Extractor.

(** ** Reporter construction *)

(** An [error] value, by its message. *)
Abbreviation error := string (only parsing).

(** [type Report struct]; the field [Report] is [ReportText] here. *)
Record Report : Type := {
  Title : bytes;
  ReportText : bytes;
  Output : bytes;
  StartPos : Z;
  EndPos : Z;
  Corrupted : bool;
  Maintainers : list string
}.

(** [type Reporter interface].  [Symbolize] fills in its argument and
    returns an error: the updated report and the error. *)
Record Reporter : Type := {
  ContainsCrash : bytes -> bool;
  Parse : bytes -> option Report;
  Symbolize : Report -> Report * option error
}.

Section NewReporter.

(** [symbolizer.Symbol]: another package. *)
Variable Symbol : Type.

(** [type fn func(string, string, map[string][]symbolizer.Symbol,
    []*regexp.Regexp) (Reporter, error)]; a [nil] interface value or
    error is [None]. *)
Definition fn : Type :=
  string -> string -> gmap string (list Symbol) -> list Regexp
  -> option Reporter * option error.

(** The per-OS constructors: defined in other files of the package. *)
Variables ctorAkaros ctorLinux ctorFreebsd ctorNetbsd ctorFuchsia ctorWindows : fn.

Definition ctors : gmap string fn :=
  <["akaros" := ctorAkaros]> (
  <["linux" := ctorLinux]> (
  <["freebsd" := ctorFreebsd]> (
  <["netbsd" := ctorNetbsd]> (
  <["fuchsia" := ctorFuchsia]> (
  <["windows" := ctorWindows]> ∅))))).

(** [fmt.Errorf("unknown os: %v", os)]. *)
Definition unknownOS (os : string) : error := ("unknown os: " ++ os)%string.

Definition NewReporter (os kernelSrc kernelObj : string)
    (symbols : gmap string (list Symbol)) (ignores : list Regexp)
    : option Reporter * option error :=
  match ctors !! os with
  | None => (None, Some (unknownOS os))
  | Some ctor =>
      let kernelObj := if decide (kernelObj = ""%string) then kernelSrc else kernelObj in
      ctor kernelSrc kernelObj symbols ignores
  end.

End NewReporter.

(** ** Redactor: [replace] on slices that share storage *)

(** A heap of backing arrays, and a slice as a window on one of them:
    elements [off .. off+slen) are the slice, [off .. off+scap) is the
    room that [append] and reslicing may use. *)
Abbreviation heap := (list bytes) (only parsing).

Record slice : Type := {
  arr : nat;
  off : nat;
  slen : nat;
  scap : nat
}.

(** Computations that read and write the heap and may panic. *)
Definition M (A : Type) : Type := heap -> result (A * heap).

Definition mret {A} (a : A) : M A := fun h => Ok (a, h).

Definition mbind {A B} (m : M A) (k : A -> M B) : M B :=
  fun h => match m h with
           | Ok (a, h') => k a h'
           | Panic msg => Panic msg
           end.

Definition mpanic {A} (msg : string) : M A := fun _ => Panic msg.

Notation "x <~ m ;; k" := (mbind m (fun x => k))
  (at level 100, m at next level, right associativity).

(** The backing array of a slice, and the bytes a slice denotes. *)
Definition backing (h : heap) (s : slice) : bytes := default [] (h !! arr s).

Definition contents (h : heap) (s : slice) : bytes :=
  take (slen s) (drop (off s) (backing h s)).

(** A slice is well formed in a heap when its window lies inside its
    array. *)
Definition valid (h : heap) (s : slice) : Prop :=
  (arr s < length h)%nat
  /\ (off s + scap s <= length (backing h s))%nat
  /\ (slen s <= scap s)%nat.

(** [s[lo:]]: Go requires [0 <= lo <= len(s)]. *)
Definition sliceFrom (s : slice) (lo : Z) : M slice :=
  if decide (0 <= lo <= Z.of_nat (slen s)) then
    mret {| arr := arr s; off := off s + Z.to_nat lo;
            slen := slen s - Z.to_nat lo; scap := scap s - Z.to_nat lo |}
  else mpanic "slice bounds out of range".

(** [s[:hi]]: Go requires [0 <= hi <= cap(s)]. *)
Definition sliceTo (s : slice) (hi : Z) : M slice :=
  if decide (0 <= hi <= Z.of_nat (scap s)) then
    mret {| arr := arr s; off := off s; slen := Z.to_nat hi; scap := scap s |}
  else mpanic "slice bounds out of range".

(** [s[lo:hi]]: Go requires [0 <= lo <= hi <= cap(s)]. *)
Definition sliceRange (s : slice) (lo hi : Z) : M slice :=
  if decide (0 <= lo /\ lo <= hi /\ hi <= Z.of_nat (scap s)) then
    mret {| arr := arr s; off := off s + Z.to_nat lo;
            slen := Z.to_nat (hi - lo); scap := scap s - Z.to_nat lo |}
  else mpanic "slice bounds out of range".

(** Reading a slice, and overwriting the array of a slice from its first
    element on. *)
Definition load (s : slice) : M bytes := fun h => Ok (contents h s, h).

Definition overwrite (a : bytes) (i : nat) (bs : bytes) : bytes :=
  take i a ++ bs ++ drop (i + length bs) a.

Definition store (s : slice) (bs : bytes) : M unit :=
  fun h => Ok (tt, <[arr s := overwrite (backing h s) (off s) bs]> h).

(** [copy(dst, src)]: copies [min(len(dst), len(src))] elements and returns
    that number; the source is read as it is before the call, so the two
    may overlap. *)
Definition copy (dst src : slice) : M Z :=
  let n := Nat.min (slen dst) (slen src) in
  bs <~ load src ;;
  _ <~ store dst (take n bs) ;;
  mret (Z.of_nat n).

Section Append.

(** The spare capacity that the runtime gives a slice it has to move:
    [slack c n] for a slice of capacity [c] growing to [n] elements. *)
Variable slack : nat -> nat -> nat.

(** [append(s, src...)]: in place when the capacity allows it, otherwise
    into a fresh array. *)
Definition append (s src : slice) : M slice :=
  bs <~ load src ;;
  let n := (slen s + length bs)%nat in
  if decide (n <= scap s)%nat then
    _ <~ store {| arr := arr s; off := off s + slen s;
                  slen := length bs; scap := scap s - slen s |} bs ;;
    mret {| arr := arr s; off := off s; slen := n; scap := scap s |}
  else
    old <~ load s ;;
    fun h =>
      let c := (n + slack (scap s) n)%nat in
      Ok ({| arr := length h; off := 0; slen := n; scap := c |},
          h ++ [old ++ bs ++ replicate (c - n) x00]).

(** [replace] replaces [start:end] in [where] with [what], in place. *)
Definition replace (where_ : slice) (start end_ : Z) (what : slice) : M slice :=
  if decide (Z.of_nat (slen what) >= end_ - start) then
    tail <~ sliceFrom what (end_ - start) ;;
    where_ <~ append where_ tail ;;
    dst <~ sliceFrom where_ (start + Z.of_nat (slen what)) ;;
    src <~ sliceFrom where_ end_ ;;
    _ <~ copy dst src ;;
    dst <~ sliceFrom where_ start ;;
    _ <~ copy dst what ;;
    mret where_
  else
    dst <~ sliceFrom where_ (start + Z.of_nat (slen what)) ;;
    src <~ sliceFrom where_ end_ ;;
    _ <~ copy dst src ;;
    where_ <~ sliceTo where_ (Z.of_nat (slen where_) - (end_ - start - Z.of_nat (slen what))) ;;
    dst <~ sliceFrom where_ start ;;
    _ <~ copy dst what ;;
    mret where_.

End Append.

(** Two buffers that share no storage: [buf] with room for [spare] more
    bytes behind it, and [r]. *)
Definition twoBuffers (buf spare r : bytes) : heap := [buf ++ spare; r].

Definition firstBuffer (buf spare : bytes) : slice :=
  {| arr := 0; off := 0; slen := length buf; scap := length buf + length spare |}.

Definition secondBuffer (r : bytes) : slice :=
  {| arr := 1; off := 0; slen := length r; scap := length r |}.

(** ** Concrete patterns and templates for the examples *)

(** The compiled form of a pattern that is a plain byte string, without
    metacharacters or groups, such as [BUG: ]: the leftmost occurrence. *)
Definition literal (lit : bytes) : Regexp :=
  {| FindSubmatchIndex := fun b =>
       let i := Index b lit in
       if decide (i = -1) then None else Some [i; i + len lit] |}.

(** The compiled form of [^lit]: an occurrence at the start of the text. *)
Definition anchored (lit : bytes) : Regexp :=
  {| FindSubmatchIndex := fun b =>
       if HasPrefix b lit then Some [0; len lit] else None |}.

(** A format made of a pattern and a template. *)
Definition mkFormat (re : Regexp) (template : bytes) : oopsFormat :=
  {| title := Some re; report := None; fmt := template; noStackTrace := false;
     corrupted := false |}.

(** [fmt.Sprintf] on the templates used here: bytes other than ['%'] are
    copied, [%%] is a percent sign, [%s] and [%v] are replaced by the next
    operand ([%!s(MISSING)] when there is none left), and operands left
    over are reported at the end.  Other verbs, flags and widths are outside
    this fragment. *)
Definition showExtra (args : list bytes) : bytes :=
  match args with
  | [] => []
  | a :: args' =>
      list_byte_of_string "%!(EXTRA string=" ++ a
      ++ concat (map (fun b => list_byte_of_string ", string=" ++ b) args')
      ++ list_byte_of_string ")"
  end.

Fixpoint sprintfFrom (inVerb : bool) (template : bytes) (args : list bytes) : bytes :=
  match template with
  | [] => if inVerb then list_byte_of_string "%!(NOVERB)" else showExtra args
  | c :: rest =>
      if inVerb then
        if decide (c = "%"%byte) then c :: sprintfFrom false rest args
        else
          match args with
          | a :: args' => a ++ sprintfFrom false rest args'
          | [] => list_byte_of_string "%!" ++ [c] ++ list_byte_of_string "(MISSING)"
                  ++ sprintfFrom false rest []
          end
      else if decide (c = "%"%byte) then sprintfFrom true rest args
      else c :: sprintfFrom false rest args
  end.

Definition SprintfModel (template : bytes) (args : list bytes) : bytes :=
  sprintfFrom false template args.

(** [[]byte("...")] for an ASCII literal. *)
Definition bytesOf (s : string) : bytes := list_byte_of_string s.

(** Three formats on [xx KASAN BUG]: the first in the list matches at
    offset 9, the other two at offset 3. *)
Definition kasanFormats : list oopsFormat :=
  [mkFormat (literal (bytesOf "BUG")) (bytesOf "bug");
   mkFormat (literal (bytesOf "KASAN")) (bytesOf "kasan");
   mkFormat (literal (bytesOf "KAS")) (bytesOf "kas")].

Definition kasanOops : oops :=
  {| header := bytesOf "BUG"; formats := kasanFormats; suppressions := [] |}.

Definition kasanOutput : bytes := bytesOf "xx KASAN BUG".

(** The scenario of the specification: a header and no formats. *)
Definition panicOops : oops :=
  {| header := bytesOf "KERNEL PANIC"; formats := []; suppressions := [] |}.

Definition panicOutput : bytes :=
  bytesOf "foo" ++ [LF] ++ bytesOf "KERNEL PANIC: null deref at 0xdead" ++ [LF]
  ++ bytesOf "bar" ++ [LF].

(** A header line that ends with one, and with two, carriage returns. *)
Definition hdrOops : oops :=
  {| header := bytesOf "HDR"; formats := []; suppressions := [] |}.

Definition hdrOutputCR : bytes := bytesOf "HDR" ++ [CR; LF].
Definition hdrOutputCRCR : bytes := bytesOf "HDR" ++ [CR; CR; LF].

(** A format whose template is empty. *)
Definition emptyTemplateOops : oops :=
  {| header := bytesOf "HDR"; formats := [mkFormat (literal (bytesOf "X")) []];
     suppressions := [] |}.

Definition emptyTemplateOutput : bytes := bytesOf "HDR X".
Definition emptyTemplateOutputCR : bytes := bytesOf "HDR" ++ [CR; LF] ++ bytesOf "X".

(** A header line of 200 bytes. *)
Definition longOutput : bytes := bytesOf "HDR" ++ replicate 197 "a"%byte ++ [LF].


(** ** Notions of the specification used by the extractor claims *)

(** The first occurrence of [sep]: no occurrence has a shorter prefix in
    front of it. *)
Definition firstOccurrence (s sep pre post : bytes) : Prop :=
  s = pre ++ sep ++ post
  /\ forall pre' post', s = pre' ++ sep ++ post' -> len pre <= len pre'.

(** The line that starts a buffer: up to the first ['\n'], or all of it. *)
Definition firstLine (s line : bytes) : Prop :=
  (LF ∉ line) /\ (s = line \/ exists rest, s = line ++ LF :: rest).

(** The title pattern of [f] matches somewhere in [output], the leftmost
    match starting at offset [p]. *)
Definition matchesAt (output : bytes) (f : oopsFormat) (p : Z) : Prop :=
  exists re m, title f = Some re /\ FindSubmatchIndex re output = Some m
               /\ m !! 0%nat = Some p.

(** The format at index [i] wins: it matches at [p], no format matches at a
    smaller offset, and none before it matches at [p]. *)
Definition winner (output : bytes) (fs : list oopsFormat) (i : nat)
    (f : oopsFormat) (p : Z) : Prop :=
  fs !! i = Some f /\ matchesAt output f p
  /\ forall j g q, fs !! j = Some g -> matchesAt output g q ->
       p < q \/ (p = q /\ (i <= j)%nat).

(** The title and the report of a result. *)
Definition titleAndReport (r : result (bytes * bytes * oopsFormat))
    : result (bytes * bytes) :=
  x <- r ;; Ok (x.1.1, x.1.2).

(** The signature without its formats. *)
Definition withoutFormats (o : oops) : oops :=
  {| header := header o; formats := []; suppressions := suppressions o |}.

(** The contract of [FindSubmatchIndex] when every group takes part in the
    match: an even number of indices, each pair a range of the text. *)
Fixpoint groupsInRange (output : bytes) (gs : list Z) : Prop :=
  match gs with
  | [] => True
  | [_] => False
  | lo :: hi :: gs' =>
      0 <= lo /\ lo <= hi /\ hi <= len output /\ groupsInRange output gs'
  end.

Definition wellFormedMatch (output : bytes) (m : list Z) : Prop :=
  exists p e gs, m = p :: e :: gs /\ 0 <= p <= len output /\ groupsInRange output gs.

Definition wellBehaved (output : bytes) (f : oopsFormat) : Prop :=
  exists re, title f = Some re
             /\ forall m, FindSubmatchIndex re output = Some m ->
                          wellFormedMatch output m.


(** ** Pattern templates: [compile] *)

(** [strings.Replace(s, old, new, -1)] for a non-empty [old], as [compile]
    calls it: the non-overlapping instances of [old], found from left to
    right, are replaced by [new].  [skip] counts the bytes of an instance
    that are still to be passed over. *)
Fixpoint replaceFrom (skip : nat) (s old new : bytes) : bytes :=
  match s with
  | [] => []
  | c :: s' =>
      match skip with
      | S n => replaceFrom n s' old new
      | O =>
          if HasPrefix s old then new ++ replaceFrom (length old - 1) s' old new
          else c :: replaceFrom 0 s' old new
      end
  end.

Definition ReplaceAll (s old new : bytes) : bytes := replaceFrom 0 s old new.

Section Compile.

(** [regexp.MustCompile]: Go's standard library; it panics when the
    expression cannot be parsed. *)
Variable MustCompile : bytes -> result Regexp.

(** [compile]: the four placeholders are expanded, in this order, and the
    result is compiled.  A backslash in a Go string literal is written
    twice; here it is written once. *)
Definition compile (re : bytes) : result Regexp :=
  let re := ReplaceAll re (bytesOf "{{ADDR}}") (bytesOf "0x[0-9a-f]+") in
  let re := ReplaceAll re (bytesOf "{{PC}}") (bytesOf "\[\<[0-9a-f]+\>\]") in
  let re := ReplaceAll re (bytesOf "{{FUNC}}") (bytesOf "([a-zA-Z0-9_]+)(?:\.|\+)") in
  let re := ReplaceAll re (bytesOf "{{SRC}}")
              (bytesOf "([a-zA-Z0-9-_/.]+\.[a-z]+:[0-9]+)") in
  MustCompile re.

End Compile.

(** A template seen as a sequence of pieces: text, and the places where a
    placeholder stands. *)
Inductive token : Type := ADDR | PC | FUNC | SRC.

Definition placeholder (k : token) : bytes :=
  match k with
  | ADDR => bytesOf "{{ADDR}}"
  | PC => bytesOf "{{PC}}"
  | FUNC => bytesOf "{{FUNC}}"
  | SRC => bytesOf "{{SRC}}"
  end.

Definition fragment (k : token) : bytes :=
  match k with
  | ADDR => bytesOf "0x[0-9a-f]+"
  | PC => bytesOf "\[\<[0-9a-f]+\>\]"
  | FUNC => bytesOf "([a-zA-Z0-9_]+)(?:\.|\+)"
  | SRC => bytesOf "([a-zA-Z0-9-_/.]+\.[a-z]+:[0-9]+)"
  end.

Inductive piece : Type :=
| Text (t : bytes)
| Hole (k : token).

(** A piece as the template has it, and as the compiled expression has
    it. *)
Definition written (p : piece) : bytes :=
  match p with
  | Text t => t
  | Hole k => placeholder k
  end.

Definition expanded (p : piece) : bytes :=
  match p with
  | Text t => t
  | Hole k => fragment k
  end.

Definition template (ps : list piece) : bytes := concat (map written ps).
Definition expansion (ps : list piece) : bytes := concat (map expanded ps).

(** The text of a piece has no opening brace. *)
Definition plainText (p : piece) : Prop :=
  match p with
  | Text t => "{"%byte ∉ t
  | Hole _ => True
  end.

(** One pass of [compile] over the pieces: the holes of one placeholder
    become text. *)
Definition sameToken (k k' : token) : bool :=
  match k, k' with
  | ADDR, ADDR | PC, PC | FUNC, FUNC | SRC, SRC => true
  | _, _ => false
  end.

Definition substitute (k : token) (p : piece) : piece :=
  match p with
  | Text t => Text t
  | Hole k' => if sameToken k' k then Text (fragment k) else Hole k'
  end.

(** ** Further notions and examples *)

(** A signature with more suppressions. *)
Definition withSuppressions (o : oops) (extra : list Regexp) : oops :=
  {| header := header o; formats := formats o;
     suppressions := suppressions o ++ extra |}.

(** Two formats on [xx KASAN BUG] that match at different offsets, 9 and
    3, in the two orders. *)
Definition bugFirstOops : oops :=
  {| header := bytesOf "BUG";
     formats := [mkFormat (literal (bytesOf "BUG")) (bytesOf "bug");
                 mkFormat (literal (bytesOf "KASAN")) (bytesOf "kasan")];
     suppressions := [] |}.

Definition kasanFirstOops : oops :=
  {| header := bytesOf "BUG";
     formats := [mkFormat (literal (bytesOf "KASAN")) (bytesOf "kasan");
                 mkFormat (literal (bytesOf "BUG")) (bytesOf "bug")];
     suppressions := [] |}.

(** The compiled form of [BUG(x)?] on texts without [BUGx]: the group takes
    no part in the match, and its two indices are [-1]. *)
Definition optionalGroup : Regexp :=
  {| FindSubmatchIndex := fun b =>
       let i := Index b (bytesOf "BUG") in
       if decide (i = -1) then None else Some [i; i + 3; -1; -1] |}.

Definition optionalGroupOops : oops :=
  {| header := bytesOf "BUG";
     formats := [mkFormat optionalGroup (bytesOf "bug %s")];
     suppressions := [] |}.

(** A format with that pattern and the format [KASAN] on [xx KASAN BUG], in
    the two orders: the first matches at offset 9 with its group left out,
    the second at offset 3. *)
Definition optionalFirstOops : oops :=
  {| header := bytesOf "BUG";
     formats := [mkFormat optionalGroup (bytesOf "bug %s");
                 mkFormat (literal (bytesOf "KASAN")) (bytesOf "kasan")];
     suppressions := [] |}.

Definition optionalLastOops : oops :=
  {| header := bytesOf "BUG";
     formats := [mkFormat (literal (bytesOf "KASAN")) (bytesOf "kasan");
                 mkFormat optionalGroup (bytesOf "bug %s")];
     suppressions := [] |}.

(** The compiled form of the pattern made of [BUG: ] and a group of zero or
    more lower-case letters: the leftmost [BUG: ], and as its group the
    lower-case letters that follow it. *)
Definition isLower (c : byte) : bool :=
  ((97 <=? Byte.to_N c) && (Byte.to_N c <=? 122))%N.

Fixpoint lowerRun (s : bytes) : Z :=
  match s with
  | [] => 0
  | c :: s' => if isLower c then 1 + lowerRun s' else 0
  end.

Definition bugWord : Regexp :=
  {| FindSubmatchIndex := fun b =>
       let i := Index b (bytesOf "BUG: ") in
       if decide (i = -1) then None
       else let n := lowerRun (from b (i + 5)) in
            Some [i; i + 5 + n; i + 5; i + 5 + n] |}.

Definition bugWordOops : oops :=
  {| header := bytesOf "BUG";
     formats := [mkFormat bugWord (bytesOf "BUG in %s")];
     suppressions := [] |}.

Definition bugWordOutput : bytes := bytesOf "xx BUG: foo bar".

(** A line with the header of [panicOops] at offset 2. *)
Definition panicLine : bytes := bytesOf "x KERNEL PANIC: y".

(** A signature whose header spans two lines. *)
Definition twoLineOops : oops :=
  {| header := bytesOf "A" ++ [LF] ++ bytesOf "B"; formats := [];
     suppressions := [] |}.

(** Three buffers that share no storage: the buffer, the replacement and a
    copy of the range that is replaced. *)
Definition threeBuffers (buf spare r old : bytes) : heap := [buf ++ spare; r; old].

Definition thirdBuffer (old : bytes) : slice :=
  {| arr := 2; off := 0; slen := length old; scap := length old |}.

(** A stand-in for [regexp.MustCompile] that accepts every expression. *)
Definition compileAny (re : bytes) : result Regexp := Ok (literal re).
(** ** Facts about the byte searches *)

Lemma len_nil {A} : len (@nil A) = 0.
Proof. reflexivity. Qed.

Lemma len_cons {A} (x : A) (l : list A) : len (x :: l) = len l + 1.
Proof. unfold len. simpl length. lia. Qed.

Lemma len_app {A} (l k : list A) : len (l ++ k) = len l + len k.
Proof. unfold len. rewrite length_app. lia. Qed.

Lemma len_nonneg {A} (l : list A) : 0 <= len l.
Proof. unfold len. lia. Qed.

Lemma HasPrefix_spec (s sep : bytes) :
  HasPrefix s sep = true <-> exists post, s = sep ++ post.
Proof.
  revert s. induction sep as [|c sep IH]; intros s; simpl.
  - split; [intros _; by exists s|done].
  - destruct s as [|d s].
    + split; [done|intros [post Hp]; discriminate].
    + destruct (decide (c = d)) as [->|Hne].
      * rewrite IH. split; intros [post Hp]; exists post; simpl in *; congruence.
      * split; [done|]. intros [post Hp]. simpl in Hp. congruence.
Qed.

(** [Index] returns the offset of the first occurrence, or [-1] when there
    is none. *)
Lemma Index_at_spec (s sep : bytes) (i : Z) :
  0 <= i ->
  (Index_at i s sep = -1 /\ ~ contains s sep)
  \/ (exists pre post,
        s = pre ++ sep ++ post
        /\ Index_at i s sep = i + len pre
        /\ forall pre' post', s = pre' ++ sep ++ post' -> len pre <= len pre').
Proof.
  revert i. induction s as [|d s IH]; intros i Hi; simpl.
  - destruct (HasPrefix [] sep) eqn:Hp.
    + right. apply HasPrefix_spec in Hp as [post Hp].
      exists [], post. rewrite len_nil. repeat split; [done|lia|].
      intros pre' post' _. pose proof (len_nonneg pre'). lia.
    + left. split; [done|]. intros (pre & post & Heq).
      assert (HasPrefix [] sep = true) as Ht; [|congruence].
      apply HasPrefix_spec. exists post.
      destruct pre; [done|discriminate].
  - destruct (HasPrefix (d :: s) sep) eqn:Hp.
    + right. apply HasPrefix_spec in Hp as [post Hp].
      exists [], post. rewrite len_nil. repeat split; [done|lia|].
      intros pre' post' _. pose proof (len_nonneg pre'). lia.
    + assert (forall pre post, d :: s = pre ++ sep ++ post ->
                exists pre0, pre = d :: pre0 /\ s = pre0 ++ sep ++ post) as Hinv.
      { intros [|c pre] post Heq.
        - assert (HasPrefix (d :: s) sep = true) as Ht; [|congruence].
          apply HasPrefix_spec. by exists post.
        - simpl in Heq. injection Heq as -> ->. by exists pre. }
      destruct (IH (i + 1)) as [[Hnone Hnc]|(pre & post & Heq & Hidx & Hmin)]; [lia| |].
      * left. split; [done|]. intros (pre & post & Heq).
        apply Hinv in Heq as (pre0 & -> & Heq). apply Hnc. by exists pre0, post.
      * right. exists (d :: pre), post. rewrite len_cons.
        repeat split; [by rewrite Heq|lia|].
        intros pre' post' Heq'. apply Hinv in Heq' as (pre0 & -> & Heq').
        rewrite len_cons. specialize (Hmin _ _ Heq'). lia.
Qed.

Lemma Index_found (s sep : bytes) :
  Index s sep <> -1 <-> contains s sep.
Proof.
  unfold Index. destruct (Index_at_spec s sep 0) as [[H Hn]|(pre & post & Heq & Hi & _)]; [lia| |].
  - split; [congruence|done].
  - split; [intros _; by exists pre, post|].
    intros _. pose proof (len_nonneg pre). lia.
Qed.

(** The first occurrence: [Index] is the length of the shortest prefix in
    front of an occurrence. *)
Lemma Index_first (s sep : bytes) :
  contains s sep ->
  exists pre post,
    s = pre ++ sep ++ post /\ Index s sep = len pre
    /\ forall pre' post', s = pre' ++ sep ++ post' -> len pre <= len pre'.
Proof.
  intros Hc. unfold Index.
  destruct (Index_at_spec s sep 0) as [[_ Hn]|(pre & post & Heq & Hi & Hmin)]; [lia|done|].
  exists pre, post. repeat split; [done|lia|done].
Qed.

Lemma Index_empty_sep (s : bytes) : Index s [] = 0.
Proof. by destruct s. Qed.

(** [IndexByte] splits the buffer at the first occurrence of the byte. *)
Lemma IndexByte_at_spec (s : bytes) (c : byte) (i : Z) :
  0 <= i ->
  (IndexByte_at i s c = -1 /\ c ∉ s)
  \/ (exists pre post,
        s = pre ++ (c :: post) /\ (c ∉ pre) /\ IndexByte_at i s c = i + len pre).
Proof.
  revert i. induction s as [|d s IH]; intros i Hi; simpl.
  - left. split; [done|]. apply not_elem_of_nil.
  - destruct (decide (d = c)) as [->|Hne].
    + right. exists [], s. rewrite len_nil. repeat split; [apply not_elem_of_nil|lia].
    + destruct (IH (i + 1)) as [[Hnone Hnc]|(pre & post & Heq & Hnc & Hidx)]; [lia| |].
      * left. split; [done|]. rewrite not_elem_of_cons. split; [congruence|done].
      * right. exists (d :: pre), post. rewrite len_cons.
        repeat split; [by rewrite Heq| |lia].
        rewrite not_elem_of_cons. split; [congruence|done].
Qed.

Lemma IndexByte_spec (s : bytes) (c : byte) :
  (IndexByte s c = -1 /\ c ∉ s)
  \/ (exists pre post,
        s = pre ++ (c :: post) /\ (c ∉ pre) /\ IndexByte s c = len pre).
Proof.
  unfold IndexByte.
  destruct (IndexByte_at_spec s c 0) as [H|(pre & post & H1 & H2 & H3)]; [lia|by left|].
  right. exists pre, post. repeat split; [done..|lia].
Qed.

(** ** Facts about [lines] *)

Lemma lines_app_LF (l rest : bytes) :
  LF ∉ l -> lines (l ++ LF :: rest) = l :: lines rest.
Proof.
  induction l as [|b l IH]; intros Hl.
  - done.
  - apply not_elem_of_cons in Hl as [Hb Hl]. cbn [lines app].
    rewrite IH by done. by destruct (decide (b = LF)).
Qed.

Lemma lines_no_LF (l : bytes) :
  LF ∉ l -> l <> [] -> lines l = [l].
Proof.
  induction l as [|b l IH]; intros Hl Hne; [done|]. cbn [lines].
  apply not_elem_of_cons in Hl as [Hb Hl].
  destruct (decide (b = LF)); [congruence|].
  destruct l as [|c l]; [done|]. by rewrite IH.
Qed.

(** ** The detector loops, characterised *)

Lemma anyMatch_false (res : list Regexp) (line : bytes) :
  anyMatch res line = false <-> forall re, re ∈ res -> Match re line = false.
Proof.
  induction res as [|re res IH]; simpl.
  - split; [|done]. intros _ re Hre. by apply elem_of_nil in Hre.
  - destruct (Match re line) eqn:Hm.
    + split; [done|]. intros H. specialize (H re (list_elem_of_here _ _)). congruence.
    + rewrite IH. split.
      * intros H re' [->|Hre]%elem_of_cons; auto.
      * intros H re' Hre. apply H. by apply list_elem_of_further.
Qed.

Lemma matchOops_accepted (line : bytes) (o : oops) (ignores : list Regexp) :
  matchOops line o ignores <> -1 <-> accepted line o ignores.
Proof.
  unfold matchOops, accepted. rewrite <- Index_found, <- !anyMatch_false.
  destruct (decide (Index line (header o) = -1)) as [He|Hne].
  - split; [done|]. by intros (? & _).
  - destruct (anyMatch (suppressions o) line); [split; [done|by intros (_ & ? & _)]|].
    destruct (anyMatch ignores line); [split; [done|by intros (_ & _ & ?)]|].
    split; done.
Qed.

Lemma anyOops_true (line : bytes) (oopses : list oops) (ignores : list Regexp) :
  anyOops line oopses ignores = true
  <-> exists o, o ∈ oopses /\ accepted line o ignores.
Proof.
  induction oopses as [|o oopses IH]; simpl.
  - split; [done|]. intros (o & Ho & _). by apply elem_of_nil in Ho.
  - destruct (decide (matchOops line o ignores = -1)) as [He|Hne].
    + rewrite IH. split.
      * intros (o' & Ho' & Ha). exists o'. split; [by apply list_elem_of_further|done].
      * intros (o' & [->|Ho']%elem_of_cons & Ha); [|by exists o'].
        apply matchOops_accepted in Ha. congruence.
    + split; [|done]. intros _. exists o.
      split; [apply list_elem_of_here|by apply matchOops_accepted].
Qed.

Lemma from_length (output : bytes) (pos : Z) :
  0 <= pos <= len output -> len (from output pos) = len output - pos.
Proof. unfold from, len. rewrite length_drop. lia. Qed.

(** From offset [pos] on, the loop of [containsCrash] visits exactly the
    lines of [output[pos:]]. *)
Lemma containsCrash_from_lines (output : bytes) (oopses : list oops)
    (ignores : list Regexp) (pos : Z) :
  0 <= pos <= len output ->
  containsCrash_from output oopses ignores pos
  = existsb (fun line => anyOops line oopses ignores) (lines (from output pos)).
Proof.
  remember (Z.to_nat (len output - pos)) as n eqn:Hn.
  revert pos Hn. induction n as [n IH] using lt_wf_ind. intros pos Hn Hpos.
  rewrite containsCrash_from_equation_1.
  destruct (decide (pos < len output)) as [Hlt|Hge]; simpl.
  - pose proof (from_length output pos Hpos) as Hlen.
    unfold lineEnd.
    destruct (IndexByte_spec (from output pos) LF)
      as [[-> Hnone]|(pre & post & Heq & Hpre & ->)].
    + destruct (decide _) as [?|?]; [lia|].
      assert (sub output pos (len output) = from output pos) as ->.
      { unfold sub. fold (from output pos). apply take_ge.
        unfold len in *. lia. }
      rewrite lines_no_LF; [|done|].
      2:{ intros E. rewrite E, len_nil in Hlen. lia. }
      simpl. rewrite containsCrash_from_equation_1.
      destruct (decide _) as [?|?]; [lia|]. simpl.
      by destruct (anyOops _ _ _).
    + pose proof (len_nonneg pre).
      destruct (decide _) as [?|?]; [|lia].
      rewrite Heq, len_app, len_cons in Hlen. pose proof (len_nonneg post).
      assert (sub output pos (len pre + pos) = pre) as ->.
      { unfold sub. fold (from output pos). rewrite Heq.
        replace (Z.to_nat (len pre + pos - pos)) with (length pre) by (unfold len; lia).
        by rewrite take_app_length. }
      rewrite Heq, lines_app_LF by done. simpl.
      destruct (anyOops pre oopses ignores); [done|]. simpl.
      rewrite (IH (Z.to_nat (len output - (len pre + pos + 1)))); [|lia|done|lia].
      f_equal. f_equal. unfold from in *.
      replace (Z.to_nat (len pre + pos + 1)) with (Z.to_nat pos + (length pre + 1))%nat
        by (unfold len; lia).
      rewrite <- drop_drop, Heq, drop_app_add'; [|done].
      done.
  - assert (from output pos = []) as ->; [|done].
    unfold from. apply drop_ge. unfold len in *. lia.
Qed.

Lemma lines_nonempty (s : bytes) : s <> [] -> exists line, line ∈ lines s.
Proof.
  destruct s as [|b s]; [done|]. intros _. simpl.
  destruct (decide (b = LF)).
  - exists []. apply list_elem_of_here.
  - destruct (lines s) as [|l ls]; eexists; apply list_elem_of_here.
Qed.

(** The detector, in terms of lines and accepted signatures. *)
Lemma containsCrash_accepts (output : bytes) (oopses : list oops)
    (ignores : list Regexp) :
  containsCrash output oopses ignores = true
  <-> exists line o, line ∈ lines output /\ o ∈ oopses /\ accepted line o ignores.
Proof.
  unfold containsCrash.
  rewrite containsCrash_from_lines by (pose proof (len_nonneg output); lia).
  unfold from. rewrite drop_0, existsb_exists. split.
  - intros (line & Hin & (o & Ho & Ha)%anyOops_true).
    exists line, o. by rewrite list_elem_of_In.
  - intros (line & o & Hin & Ho & Ha). exists line.
    split; [by apply list_elem_of_In|]. apply anyOops_true. by exists o.
Qed.

(** [lines] distributes over an append that follows a complete line. *)
Lemma lines_app (pre s : bytes) :
  pre = [] \/ (exists pre', pre = pre' ++ [LF]) ->
  lines (pre ++ s) = lines pre ++ lines s.
Proof.
  intros [->|[pre' ->]]; [done|].
  induction pre' as [|b pre' IH]; [done|].
  cbn [app lines]. rewrite IH. destruct (decide (b = LF)); [done|].
  destruct pre' as [|c pre']; [done|].
  cbn [app lines]. destruct (decide (c = LF)); [done|].
  by destruct (lines (pre' ++ [LF])).
Qed.

(** [containsCrash] returns [true] at the first accepted line: what follows
    that line in the output plays no part. *)
Lemma containsCrash_first_accepted_line (pre line rest : bytes)
    (oopses : list oops) (ignores : list Regexp) (o : oops) :
  pre = [] \/ (exists pre', pre = pre' ++ [LF]) ->
  LF ∉ line -> o ∈ oopses -> accepted line o ignores ->
  containsCrash (pre ++ line ++ LF :: rest) oopses ignores = true.
Proof.
  intros Hpre Hline Ho Ha. apply containsCrash_accepts. exists line, o.
  split; [|done]. rewrite lines_app, lines_app_LF by done.
  apply elem_of_app. right. apply list_elem_of_here.
Qed.

(** ** Facts about windows on arrays and the heap operations *)

Local Open Scope nat_scope.

Lemma lookup_app_decide {A} (l1 l2 : list A) (i : nat) :
  (l1 ++ l2) !! i = if decide (i < length l1) then l1 !! i else l2 !! (i - length l1).
Proof.
  destruct (decide _); [by apply lookup_app_l|apply lookup_app_r; lia].
Qed.

Lemma length_overwrite (a : bytes) (i : nat) (bs : bytes) :
  i + length bs <= length a -> length (overwrite a i bs) = length a.
Proof.
  intros H. unfold overwrite. rewrite !length_app, length_take, length_drop. lia.
Qed.

Lemma lookup_overwrite (a : bytes) (i : nat) (bs : bytes) (q : nat) :
  i + length bs <= length a ->
  overwrite a i bs !! q
  = if decide (i <= q < i + length bs) then bs !! (q - i) else a !! q.
Proof.
  intros H. unfold overwrite.
  rewrite !lookup_app_decide, lookup_take, lookup_drop, length_take.
  replace (i `min` length a) with i by lia.
  destruct (decide (q < i)), (decide (i <= q < i + length bs)),
    (decide (q - i < length bs)); try lia; try done.
  f_equal. lia.
Qed.

Lemma lookup_window (a : bytes) (o n q : nat) :
  take n (drop o a) !! q = if decide (q < n) then a !! (o + q) else None.
Proof. by rewrite lookup_take, lookup_drop. Qed.

(** Moving the tail of a window and writing the replacement in front of it. *)
Lemma splice_window (a r : bytes) (o s k t : nat) :
  o + s + k + t <= length a ->
  o + s + length r + t <= length a ->
  take (s + length r + t)
    (drop o (overwrite (overwrite a (o + s + length r) (take t (drop (o + s + k) a)))
               (o + s) r))
  = take s (take (s + k + t) (drop o a)) ++ r
    ++ drop (s + k) (take (s + k + t) (drop o a)).
Proof.
  intros H1 H2.
  assert (length (take t (drop (o + s + k) a)) = t) as Ht.
  { rewrite length_take, length_drop. lia. }
  apply list_eq. intros q.
  rewrite lookup_window, lookup_overwrite by (rewrite length_overwrite; lia).
  rewrite lookup_overwrite by lia. rewrite Ht, lookup_window.
  rewrite !lookup_app_decide, length_take, length_take, length_drop.
  replace (s `min` ((s + k + t) `min` (length a - o))) with s by lia.
  rewrite lookup_take, lookup_window, lookup_drop, lookup_window.
  destruct (decide (q < s)).
  - rewrite decide_True by lia. rewrite decide_False by lia.
    rewrite decide_False by lia. by rewrite decide_True by lia.
  - destruct (decide (q - s < length r)).
    + rewrite decide_True by lia. rewrite decide_True by lia. f_equal. lia.
    + destruct (decide (q < s + length r + t)).
      * rewrite decide_False by lia. rewrite decide_True by lia.
        rewrite decide_True by lia. rewrite decide_True by lia. f_equal. lia.
      * rewrite decide_False by lia. done.
Qed.

Lemma bind_sliceFrom {B} (s : slice) (lo : Z) (l : nat) (k : slice -> M B) (h : heap) :
  lo = Z.of_nat l -> l <= slen s ->
  (x <~ sliceFrom s lo ;; k x) h
  = k {| arr := arr s; off := off s + l; slen := slen s - l; scap := scap s - l |} h.
Proof.
  intros -> H. unfold mbind, sliceFrom. rewrite Nat2Z.id.
  destruct (decide _); [done|lia].
Qed.

Lemma bind_sliceTo {B} (s : slice) (hi : Z) (l : nat) (k : slice -> M B) (h : heap) :
  hi = Z.of_nat l -> l <= scap s ->
  (x <~ sliceTo s hi ;; k x) h
  = k {| arr := arr s; off := off s; slen := l; scap := scap s |} h.
Proof.
  intros -> H. unfold mbind, sliceTo. rewrite Nat2Z.id.
  destruct (decide _); [done|lia].
Qed.

Lemma bind_copy {B} (dst src : slice) (k : Z -> M B) (h : heap) :
  (x <~ copy dst src ;; k x) h
  = k (Z.of_nat (Nat.min (slen dst) (slen src)))
      (<[arr dst := overwrite (backing h dst) (off dst)
                      (take (Nat.min (slen dst) (slen src)) (contents h src))]> h).
Proof. done. Qed.

Lemma length_contents (h : heap) (s : slice) :
  valid h s -> length (contents h s) = slen s.
Proof.
  intros (_ & H1 & H2). unfold contents. rewrite length_take, length_drop. lia.
Qed.

Lemma backing_insert_eq (h : heap) (s : slice) (i : nat) (a : bytes) :
  i < length h -> arr s = i -> backing (<[i := a]> h) s = a.
Proof.
  intros Hi <-. unfold backing. by rewrite list_lookup_insert_eq.
Qed.

Lemma backing_insert_ne (h : heap) (s : slice) (i : nat) (a : bytes) :
  arr s <> i -> backing (<[i := a]> h) s = backing h s.
Proof.
  intros Hi. unfold backing. by rewrite list_lookup_insert_ne.
Qed.

Lemma contents_insert_ne (h : heap) (s : slice) (i : nat) (a : bytes) :
  arr s <> i -> contents (<[i := a]> h) s = contents h s.
Proof. intros Hi. unfold contents. by rewrite backing_insert_ne. Qed.

Lemma backing_app_l (h h2 : heap) (s : slice) :
  arr s < length h -> backing (h ++ h2) s = backing h s.
Proof. intros H. unfold backing. by rewrite lookup_app_l. Qed.

Lemma backing_app_new (h : heap) (x : bytes) (s : slice) :
  arr s = length h -> backing (h ++ [x]) s = x.
Proof. intros H. unfold backing. by rewrite list_lookup_middle. Qed.

Lemma overwrite_window_self (a : bytes) (i n : nat) :
  i + n <= length a -> overwrite a i (take n (drop i a)) = a.
Proof.
  intros H. unfold overwrite. rewrite length_take, length_drop.
  replace (i + n `min` (length a - i)) with (i + n) by lia.
  by rewrite app_assoc, take_take_drop, take_drop.
Qed.

Lemma bind_sliceRange {B} (s : slice) (lo hi : Z) (l k : nat) (f : slice -> M B) (h : heap) :
  lo = Z.of_nat l -> hi = Z.of_nat (l + k) -> l + k <= scap s ->
  (x <~ sliceRange s lo hi ;; f x) h
  = f {| arr := arr s; off := off s + l; slen := k; scap := scap s - l |} h.
Proof.
  intros -> -> H. unfold mbind, sliceRange. rewrite Nat2Z.id.
  replace (Z.to_nat (Z.of_nat (l + k) - Z.of_nat l)) with k by lia.
  destruct (decide _); [done|lia].
Qed.

Lemma overwrite_nil (a : bytes) (i : nat) : overwrite a i [] = a.
Proof.
  unfold overwrite. cbn [length app]. by rewrite Nat.add_0_r, take_drop.
Qed.

Section ReplaceProofs.
Variable slack : nat -> nat -> nat.

Lemma bind_append_in_place {B} (s src : slice) (k : slice -> M B) (h : heap) :
  slen s + slen src <= scap s -> valid h src ->
  (x <~ append slack s src ;; k x) h
  = k {| arr := arr s; off := off s; slen := slen s + slen src; scap := scap s |}
      (<[arr s := overwrite (backing h s) (off s + slen s) (contents h src)]> h).
Proof.
  intros H Hv. unfold append, mbind, load. rewrite length_contents by done.
  by destruct (decide _).
Qed.

Lemma bind_append_fresh {B} (s src : slice) (k : slice -> M B) (h : heap) :
  ~ (slen s + slen src <= scap s) -> valid h src ->
  (x <~ append slack s src ;; k x) h
  = k {| arr := length h; off := 0; slen := slen s + slen src;
         scap := slen s + slen src + slack (scap s) (slen s + slen src) |}
      (h ++ [contents h s ++ contents h src
             ++ replicate (slack (scap s) (slen s + slen src)) x00]).
Proof.
  intros H Hv. unfold append, mbind, load. rewrite length_contents by done.
  destruct (decide _); [done|]. cbn zeta.
  do 6 f_equal. lia.
Qed.



Ltac heap_norm :=
  unfold valid, contents, backing; cbn [arr off slen scap];
  repeat (first
    [ rewrite list_insert_insert_eq
    | rewrite list_lookup_insert_eq by (rewrite ?length_insert; lia)
    | rewrite list_lookup_insert_ne by congruence
    | rewrite length_insert ]);
  cbn [default from_option id].



(** The first branch after [append]: the tail is moved up and the
    replacement written in front of it. *)
Lemma grow_rest (h : heap) (w wh : slice) (s k t : nat) :
  valid h w -> valid h wh -> arr wh <> arr w ->
  k <= slen wh -> slen w = s + slen wh + t ->
  exists h',
    (dst <~ sliceFrom w (Z.of_nat s + Z.of_nat (slen wh)) ;;
     src <~ sliceFrom w (Z.of_nat (s + k)) ;;
     _ <~ copy dst src ;;
     dst <~ sliceFrom w (Z.of_nat s) ;;
     _ <~ copy dst wh ;;
     mret w) h
    = Ok (w, h')
    /\ valid h' w
    /\ contents h' w
       = take s (take (s + k + t) (contents h w)) ++ contents h wh
         ++ drop (s + k) (take (s + k + t) (contents h w)).
Proof.
  intros (Hw1 & Hw2 & Hw3) Hwh Hne Hk Hlen.
  pose proof (length_contents _ _ Hwh) as Hr.
  destruct Hwh as (Hh1 & Hh2 & Hh3).
  destruct w as [aw o n c], wh as [ah oh m ch].
  unfold contents, backing in *. cbn [arr off slen scap] in *. subst n.
  set (a := default [] (h !! aw)) in *. set (b := default [] (h !! ah)) in *.
  rewrite (bind_sliceFrom _ _ (s + m)) by (cbn [slen]; lia).
  rewrite (bind_sliceFrom _ _ (s + k)) by (cbn [slen]; lia).
  rewrite bind_copy. cbn [arr off slen scap].
  rewrite (bind_sliceFrom _ _ s) by (cbn [slen]; lia).
  rewrite bind_copy. cbn [arr off slen scap]. unfold mret.
  eexists. split; [reflexivity|].
  heap_norm. fold a b.
  replace ((s + m + t - (s + m)) `min` (s + m + t - (s + k))) with t by lia.
  replace ((s + m + t - s) `min` m) with m by lia.
  rewrite (take_take _ t), (take_take _ (s + k + t) (s + m + t)), take_idemp.
  replace (t `min` (s + m + t - (s + k))) with t by lia.
  replace ((s + k + t) `min` (s + m + t)) with (s + k + t) by lia.
  set (r := take m (drop oh b)) in *.
  replace m with (length r) by done. rewrite !Nat.add_assoc.
  split.
  - split; [done|]. split; [|lia].
    rewrite !length_overwrite; rewrite ?length_overwrite;
      rewrite ?length_take, ?length_drop; lia.
  - apply splice_window; lia.
Qed.

Lemma window_overwrite_after (a bs : bytes) (o n : nat) :
  o + n + length bs <= length a ->
  take n (drop o (overwrite a (o + n) bs)) = take n (drop o a).
Proof.
  intros H. apply list_eq. intros q.
  rewrite !lookup_window, lookup_overwrite by lia.
  destruct (decide (q < n)); [|done]. by rewrite decide_False by lia.
Qed.

Lemma replace_separate_nat (h : heap) (w wh : slice) (s k t : nat) :
  valid h w -> valid h wh -> arr wh <> arr w ->
  slen w = s + k + t ->
  exists res h',
    replace slack w (Z.of_nat s) (Z.of_nat (s + k)) wh h = Ok (res, h')
    /\ valid h' res
    /\ contents h' res
       = take s (contents h w) ++ contents h wh ++ drop (s + k) (contents h w).
Proof.
  intros Hw Hwh Hne Hlen. unfold replace.
  destruct (decide _) as [Hge|Hlt].
  - assert (k <= slen wh) as Hk by lia.
    assert (valid h {| arr := arr wh; off := off wh + k; slen := slen wh - k;
                       scap := scap wh - k |}) as Htail.
    { destruct Hwh as (? & ? & ?). unfold valid, backing in *.
      cbn [arr off slen scap]. lia. }
    rewrite (bind_sliceFrom _ _ k) by lia.
    destruct (decide (slen w + (slen wh - k) <= scap w)) as [Hroom|Hfull].
    + rewrite bind_append_in_place by done. cbn [slen].
      set (h0 := <[arr w := _]> h).
      set (w0 := {| arr := arr w; off := off w; slen := slen w + (slen wh - k);
                    scap := scap w |}).
      destruct (grow_rest h0 w0 wh s k t) as (h' & Hrun & Hv & Hc).
      * destruct Hw as (? & ? & ?). unfold valid, h0, w0.
        cbn [arr off slen scap].
        rewrite length_insert, (backing_insert_eq _ _ (arr w)) by done.
        rewrite length_overwrite; [lia|].
        rewrite length_contents by done. cbn [slen]. lia.
      * destruct Hwh as (? & ? & ?). unfold valid, h0.
        rewrite length_insert, backing_insert_ne by done. lia.
      * done.
      * done.
      * cbn [slen w0]. lia.
      * rewrite Hrun. exists w0, h'. split; [done|].
        split.
        { exact Hv. }
        rewrite Hc. unfold h0. rewrite (contents_insert_ne _ wh) by done.
        assert (take (s + k + t) (contents (<[arr w:=overwrite (backing h w)
                  (off w + slen w)
                  (contents h {| arr := arr wh; off := off wh + k;
                                 slen := slen wh - k; scap := scap wh - k |})]> h) w0)
                = contents h w) as ->; [|done].
        unfold contents at 1. rewrite (backing_insert_eq _ _ (arr w)); [|by destruct Hw|done].
        cbn [slen off w0]. rewrite take_take.
        replace ((s + k + t) `min` (slen w + (slen wh - k))) with (slen w) by lia.
        unfold contents at 2. apply window_overwrite_after.
        rewrite length_contents by done. cbn [slen].
        destruct Hw as (? & ? & ?). lia.
    + rewrite bind_append_fresh by done. cbn [slen].
      set (h0 := h ++ _).
      set (w0 := {| arr := length h; off := 0; slen := slen w + (slen wh - k);
                    scap := _ |}).
      pose proof (length_contents _ _ Hw) as Hbuf.
      destruct (grow_rest h0 w0 wh s k t) as (h' & Hrun & Hv & Hc).
      * unfold valid, h0, w0. cbn [arr off slen scap].
        rewrite backing_app_new by done.
        rewrite !length_app, length_replicate, Hbuf, length_contents by done.
        cbn [length slen]. lia.
      * destruct Hwh as (? & ? & ?). unfold valid, h0.
        rewrite length_app, backing_app_l by done. lia.
      * destruct Hwh as (? & _). cbn [arr w0]. lia.
      * done.
      * cbn [slen w0]. lia.
      * rewrite Hrun. exists w0, h'. split; [done|]. split; [done|].
        assert (contents h0 wh = contents h wh) as Ewh.
        { unfold contents, h0. rewrite backing_app_l; [done|by destruct Hwh]. }
        assert (take (s + k + t) (contents h0 w0) = contents h w) as Ew.
        { unfold contents at 1. unfold h0. rewrite backing_app_new by done.
          cbn [off slen w0]. rewrite drop_0, take_take.
          replace ((s + k + t) `min` (slen w + (slen wh - k)))
            with (length (contents h w)) by lia.
          by rewrite take_app_length. }
        by rewrite Hc, Ewh, Ew.
  - destruct Hw as (Hw1 & Hw2 & Hw3).
    pose proof (length_contents _ _ Hwh) as Hr.
    destruct Hwh as (Hh1 & Hh2 & Hh3).
    destruct w as [aw o n c], wh as [ah oh m ch].
    unfold contents, backing in *. cbn [arr off slen scap] in *. subst n.
    set (a := default [] (h !! aw)) in *. set (b := default [] (h !! ah)) in *.
    rewrite (bind_sliceFrom _ _ (s + m)) by (cbn [slen]; lia).
    rewrite (bind_sliceFrom _ _ (s + k)) by (cbn [slen]; lia).
    rewrite bind_copy. cbn [arr off slen scap].
    rewrite (bind_sliceTo _ _ (s + m + t)) by (cbn [slen scap]; lia).
    rewrite (bind_sliceFrom _ _ s) by (cbn [slen]; lia).
    rewrite bind_copy. cbn [arr off slen scap]. unfold mret.
    eexists _, _. split; [reflexivity|].
    heap_norm. fold a b.
    replace ((s + k + t - (s + m)) `min` (s + k + t - (s + k))) with t by lia.
    replace ((s + m + t - s) `min` m) with m by lia.
    rewrite take_take. replace (t `min` (s + k + t - (s + k))) with t by lia.
    rewrite take_idemp. set (r := take m (drop oh b)) in *.
    replace m with (length r) by done.
    rewrite !Nat.add_assoc.
    split.
    + split; [done|]. split; [|lia].
      rewrite !length_overwrite; rewrite ?length_overwrite;
        rewrite ?length_take, ?length_drop; lia.
    + apply splice_window; lia.
Qed.
Lemma replace_self_nat (h : heap) (w : slice) (s k t : nat) :
  valid h w -> slen w = s + k + t ->
  (what <~ sliceRange w (Z.of_nat s) (Z.of_nat (s + k)) ;;
   replace slack w (Z.of_nat s) (Z.of_nat (s + k)) what) h
  = Ok (w, h).
Proof.
  intros Hw Hlen. pose proof Hw as (Hw1 & Hw2 & Hw3).
  destruct w as [aw o n c]. cbn [arr off slen scap] in *. subst n.
  set (w := {| arr := aw; off := o; slen := s + k + t; scap := c |}) in *.
  rewrite (bind_sliceRange _ _ _ s k) by (done || (cbn [scap w]; lia)).
  cbn [arr off slen scap w].
  unfold replace. cbn [slen].
  destruct (decide _) as [_|Hlt]; [|lia].
  rewrite (bind_sliceFrom _ _ k) by (cbn [slen]; lia).
  rewrite bind_append_in_place.
  2:{ cbn [slen w scap]. lia. }
  2:{ unfold valid, backing in *. cbn [arr off slen scap w] in *. lia. }
  unfold contents, backing in *. cbn [arr off slen scap w] in *.
  set (a := default [] (h !! aw)) in *.
  assert (<[aw := a]> h = h) as Hid.
  { apply list_insert_id. unfold a. destruct (h !! aw) eqn:E; [done|].
    apply lookup_ge_None_1 in E. lia. }
  rewrite Nat.sub_diag, take_0, overwrite_nil, Hid.
  replace (s + k + t + 0) with (s + k + t) by lia. fold w.
  rewrite (bind_sliceFrom _ _ (s + k)) by (cbn [slen w]; lia).
  rewrite (bind_sliceFrom _ _ (s + k)) by (cbn [slen w]; lia).
  rewrite bind_copy. unfold contents, backing. cbn [arr off slen scap w]. fold a.
  rewrite Nat.min_id, take_idemp.
  rewrite overwrite_window_self by lia. rewrite Hid.
  rewrite (bind_sliceFrom _ _ s) by (cbn [slen w]; lia).
  rewrite bind_copy. unfold contents, backing. cbn [arr off slen scap w]. fold a.
  unfold mret. rewrite take_take.
  replace (((s + k + t - s) `min` k) `min` k) with k by lia.
  rewrite overwrite_window_self by lia. by rewrite Hid.
Qed.
End ReplaceProofs.

Local Open Scope Z_scope.

(** [replace] on buffers without shared storage, in Go's integer indices. *)
Lemma replace_separate (slack : nat -> nat -> nat) (h : heap) (w wh : slice) (s e : Z) :
  valid h w -> valid h wh -> arr wh <> arr w ->
  0 <= s -> s <= e -> e <= Z.of_nat (slen w) ->
  exists res h',
    replace slack w s e wh h = Ok (res, h')
    /\ valid h' res
    /\ contents h' res = sub (contents h w) 0 s ++ contents h wh ++ from (contents h w) e.
Proof.
  intros Hw Hwh Hne Hs Hse He.
  destruct (replace_separate_nat slack h w wh (Z.to_nat s) (Z.to_nat (e - s))
              (slen w - Z.to_nat e) Hw Hwh Hne) as (res & h' & Hrun & Hv & Hc); [lia|].
  rewrite Z2Nat.id in Hrun by lia.
  replace (Z.of_nat (Z.to_nat s + Z.to_nat (e - s))) with e in Hrun by lia.
  exists res, h'. split; [done|]. split; [done|].
  rewrite Hc. unfold sub, from. rewrite drop_0, Z.sub_0_r.
  by replace (Z.to_nat s + Z.to_nat (e - s))%nat with (Z.to_nat e) by lia.
Qed.

Lemma contents_firstBuffer (buf spare r : bytes) :
  contents (twoBuffers buf spare r) (firstBuffer buf spare) = buf.
Proof.
  unfold contents, backing, twoBuffers, firstBuffer.
  cbn -[take drop app]. by rewrite drop_0, take_app_length.
Qed.

Lemma contents_secondBuffer (buf spare r : bytes) :
  contents (twoBuffers buf spare r) (secondBuffer r) = r.
Proof.
  unfold contents, backing, twoBuffers, secondBuffer.
  cbn -[take drop app]. by rewrite drop_0, take_ge.
Qed.

Lemma valid_twoBuffers (buf spare r : bytes) :
  valid (twoBuffers buf spare r) (firstBuffer buf spare)
  /\ valid (twoBuffers buf spare r) (secondBuffer r).
Proof.
  unfold valid, backing. cbn -[app]. rewrite length_app. lia.
Qed.


(** ** The title adjustments *)

Lemma sub_0 (b : bytes) (hi : Z) : sub b 0 hi = take (Z.to_nat hi) b.
Proof. unfold sub. by rewrite Z.sub_0_r, drop_0. Qed.

Lemma dropCR_spec (desc : bytes) :
  (last desc = Some CR /\ exists pre, desc = pre ++ [CR] /\ dropCR desc = pre)
  \/ (last desc <> Some CR /\ dropCR desc = desc).
Proof.
  unfold dropCR. rewrite last_lookup.
  replace (Z.to_nat (len desc - 1)) with (pred (length desc)) by (unfold len; lia).
  destruct (decide _) as [[Hlen Hlast]|Hno].
  - left. split; [done|]. rewrite <- last_lookup in Hlast.
    apply last_Some in Hlast as [pre ->]. exists pre. split; [done|].
    rewrite sub_0.
    assert (Z.to_nat (len (pre ++ [CR]) - 1) = length pre) as ->.
    { rewrite len_app. unfold len. simpl length. lia. }
    by rewrite take_app_length.
  - right. split; [|done]. intros Hlast. apply Hno. split; [|done].
    rewrite <- last_lookup in Hlast. destruct desc; [done|].
    rewrite len_cons. pose proof (len_nonneg desc). lia.
Qed.

Lemma truncate_spec (desc : bytes) :
  truncate desc = take 180 desc.
Proof.
  unfold truncate, maxDescLen. destruct (decide _) as [Hlong|Hshort].
  - by rewrite sub_0.
  - rewrite take_ge; [done|]. unfold len in *. lia.
Qed.

Lemma trimTitle_length (desc : bytes) : len (trimTitle desc) <= maxDescLen.
Proof.
  unfold trimTitle. rewrite truncate_spec. unfold len, maxDescLen.
  rewrite length_take. lia.
Qed.

Lemma trimTitle_long (desc : bytes) :
  len desc > maxDescLen ->
  trimTitle desc = sub desc 0 maxDescLen /\ len (trimTitle desc) = maxDescLen.
Proof.
  unfold maxDescLen. intros Hlong.
  assert (trimTitle desc = take 180 desc) as ->.
  { unfold trimTitle. rewrite truncate_spec.
    destruct (dropCR_spec desc) as [(_ & pre & -> & ->)|(_ & ->)]; [|done].
    rewrite len_app in Hlong. unfold len in Hlong. simpl length in Hlong.
    rewrite take_app_le; [done|lia]. }
  rewrite sub_0. split; [done|]. unfold len in *. rewrite length_take. lia.
Qed.

Lemma trimTitle_last_CR (desc : bytes) :
  last (trimTitle desc) = Some CR ->
  (exists pre, desc = pre ++ [CR; CR])
  \/ (len desc > maxDescLen /\ desc !! 179%nat = Some CR).
Proof.
  unfold trimTitle. rewrite truncate_spec. intros Hlast.
  destruct (decide (length (dropCR desc) <= 180)%nat) as [Hshort|Hlong].
  - left. rewrite take_ge in Hlast by done.
    destruct (dropCR_spec desc) as [(_ & pre & -> & Hd)|(Hno & Hd)];
      rewrite Hd in Hlast; [|done].
    apply last_Some in Hlast as [pre' ->]. exists pre'. by rewrite <- app_assoc.
  - right. rewrite last_lookup, length_take in Hlast.
    replace (pred (180 `min` length (dropCR desc)))%nat with 179%nat in Hlast by lia.
    rewrite lookup_take_lt in Hlast by lia.
    destruct (dropCR_spec desc) as [(_ & pre & -> & Hd)|(Hno & Hd)];
      rewrite Hd in *.
    + split; [rewrite len_app; unfold len, maxDescLen; simpl length; lia|].
      by apply lookup_app_l_Some.
    + split; [unfold len, maxDescLen; lia|done].
Qed.

(** ** The header fallback *)

Lemma Index_firstOccurrence (s sep pre post : bytes) :
  firstOccurrence s sep pre post -> Index s sep = len pre.
Proof.
  intros [Heq Hmin].
  destruct (Index_first s sep) as (pre0 & post0 & Heq0 & Hi & Hmin0); [by exists pre, post|].
  specialize (Hmin _ _ Heq0). specialize (Hmin0 _ _ Heq). lia.
Qed.

Lemma from_app_length (pre rest : bytes) : from (pre ++ rest) (len pre) = rest.
Proof. unfold from, len. by rewrite Nat2Z.id, drop_app_length. Qed.

Lemma sub_from (b : bytes) (lo hi : Z) :
  sub b lo hi = take (Z.to_nat (hi - lo)) (from b lo).
Proof. done. Qed.

Lemma headerFallback_skipped (output : bytes) (o : oops) (vars : extractVars) :
  v_desc vars <> [] -> headerFallback output o vars = Ok vars.
Proof.
  intros Hne. unfold headerFallback. destruct (decide _) as [Hz|]; [|done].
  destruct (v_desc vars); [done|]. rewrite len_cons in Hz.
  pose proof (len_nonneg l). lia.
Qed.

Lemma headerFallback_panics (output : bytes) (o : oops) (vars : extractVars) :
  v_desc vars = [] -> ~ contains output (header o) ->
  headerFallback output o vars = Panic "non matching oops".
Proof.
  intros Hd Hnc. unfold headerFallback. rewrite Hd.
  destruct (decide (len [] = 0)) as [_|?]; [|done].
  destruct (decide (Index output (header o) = -1)) as [|Hfound]; [done|].
  exfalso. by apply Hnc, Index_found.
Qed.

Lemma firstLine_exists (s : bytes) : exists line, firstLine s line.
Proof.
  destruct (IndexByte_spec s LF) as [[_ Hno]|(pre & post & -> & Hpre & _)].
  - exists s. split; [done|by left].
  - exists pre. split; [done|right; by exists post].
Qed.

Lemma firstLine_end (s line : bytes) :
  firstLine s line ->
  (IndexByte s LF = -1 /\ s = line)
  \/ (IndexByte s LF = len line /\ exists rest, s = line ++ LF :: rest).
Proof.
  intros [Hno Hs].
  destruct (IndexByte_spec s LF) as [[Hi Hnone]|(pre & post & Heq & Hpre & Hi)].
  - left. split; [done|]. destruct Hs as [->|[rest ->]]; [done|].
    exfalso. apply Hnone. apply elem_of_app. right. apply list_elem_of_here.
  - right. destruct Hs as [->|[rest ->]].
    + exfalso. apply Hno. rewrite Heq. apply elem_of_app. right. apply list_elem_of_here.
    + assert (pre = line) as ->; [|split; [done|by exists rest]].
      clear Hi. revert line Hno Heq. induction pre as [|c pre IH]; intros [|d line] Hno Heq.
      * done.
      * simplify_eq/=. exfalso. apply Hno, list_elem_of_here.
      * simplify_eq/=. exfalso. apply Hpre, list_elem_of_here.
      * simpl in Heq. injection Heq as -> Heq. f_equal.
        apply IH; [|by eapply not_elem_of_cons|done].
        by eapply not_elem_of_cons.
Qed.

(** What the fallback block computes when the title is still empty. *)
Lemma headerFallback_taken (output : bytes) (o : oops) (vars : extractVars)
    (pre post line : bytes) :
  v_desc vars = [] ->
  firstOccurrence output (header o) pre post ->
  firstLine (header o ++ post) line ->
  headerFallback output o vars
  = Ok {| v_startPos := v_startPos vars; v_desc := line;
          v_report := header o ++ post; v_format := v_format vars |}.
Proof.
  intros Hd Hocc Hline. unfold headerFallback. rewrite Hd.
  destruct (decide (len [] = 0)) as [_|?]; [|done].
  rewrite (Index_firstOccurrence _ _ _ _ Hocc).
  pose proof (len_nonneg pre).
  destruct (decide (len pre = -1)) as [?|_]; [lia|].
  destruct Hocc as [Heq _]. rewrite sub_from.
  assert (from output (len pre) = header o ++ post) as ->.
  { rewrite Heq. apply from_app_length. }
  assert (len output = len pre + len (header o ++ post)) as Hlen.
  { by rewrite Heq, len_app. }
  f_equal. f_equal.
  destruct (firstLine_end _ _ Hline) as [[-> Hs]|[-> [rest Hs]]].
  - destruct (decide (-1 = -1)) as [_|?]; [|done].
    rewrite take_ge; [done|]. unfold len in *. lia.
  - pose proof (len_nonneg line).
    destruct (decide (len line = -1)) as [?|_]; [lia|].
    rewrite Hs. replace (Z.to_nat (len line + len pre - len pre)) with (length line)
      by (unfold len; lia).
    by rewrite take_app_length.
Qed.

(** ** The loop over the formats *)

Lemma rbind_Ok {A B} (r : result A) (k : A -> result B) (b : B) :
  (x <- r ;; k x) = Ok b -> exists a, r = Ok a /\ k a = Ok b.
Proof. destruct r as [a|msg]; [by exists a|done]. Qed.

Lemma slice_checked_Ok (b : bytes) (lo hi : Z) (r : bytes) :
  slice_checked b lo hi = Ok r ->
  0 <= lo /\ lo <= hi /\ hi <= len b /\ r = sub b lo hi.
Proof.
  unfold slice_checked. destruct (decide _) as [(? & ? & ?)|]; [|done].
  by intros [= <-].
Qed.

Lemma sub_to_end (b : bytes) (lo : Z) : sub b lo (len b) = from b lo.
Proof.
  unfold sub, from. apply take_ge. rewrite length_drop. unfold len. lia.
Qed.

Lemma matchesAt_fun (output : bytes) (f : oopsFormat) (p q : Z) :
  matchesAt output f p -> matchesAt output f q -> p = q.
Proof.
  intros (re & m & Ht & Hm & Hp) (re' & m' & Ht' & Hm' & Hq). congruence.
Qed.

Section FormatLoopProofs.
Variable Sprintf : bytes -> list bytes -> bytes.

(** The three ways an iteration can end without a panic: the pattern does
    not match; it matches no earlier than the current winner; it matches
    earlier (or first) and the format becomes the winner. *)
Lemma formatStep_Ok (output : bytes) (vars vars1 : extractVars) (f : oopsFormat) :
  formatStep Sprintf output vars f = Ok vars1 ->
  (vars1 = vars /\ forall q, ~ matchesAt output f q)
  \/ (exists p, matchesAt output f p
       /\ v_startPos vars <> -1 /\ v_startPos vars <= p /\ vars1 = vars)
  \/ (exists p re m args,
        title f = Some re /\ FindSubmatchIndex re output = Some m
        /\ m !! 0%nat = Some p
        /\ submatchArgs output (drop 2 m) = Ok args
        /\ (v_startPos vars = -1 \/ p < v_startPos vars)
        /\ 0 <= p <= len output
        /\ vars1 = {| v_startPos := p; v_desc := Sprintf (fmt f) args;
                      v_report := from output p; v_format := f |}).
Proof.
  unfold formatStep. destruct (title f) as [re|] eqn:Ht; [|done].
  destruct (FindSubmatchIndex re output) as [m|] eqn:Hm.
  - intros (p & Hp & Hrest)%rbind_Ok. unfold index_checked in Hp.
    destruct (m !! 0%nat) as [p'|] eqn:Hm0; [|done]. injection Hp as ->.
    assert (matchesAt output f p) as Hmatch by (by exists re, m).
    destruct (decide _) as [[Hsp Hle]|Hnew].
    + injection Hrest as <-. right. left. by exists p.
    + apply rbind_Ok in Hrest as (args & Hargs & Hrest).
      apply rbind_Ok in Hrest as (rep & Hrep & Hrest).
      apply slice_checked_Ok in Hrep as (? & ? & ? & ->).
      injection Hrest as <-. right. right. exists p, re, m, args.
      rewrite sub_to_end. repeat split; try done; lia.
  - intros [= <-]. left. split; [done|].
    intros q (re' & m' & Ht' & Hm' & _). congruence.
Qed.

(** The outcome of the loop: either no format took over from the initial
    variables, or the variables are those of the winner. *)
Lemma formatLoop_Ok (output : bytes) (fs : list oopsFormat)
    (vars vars' : extractVars) :
  formatLoop Sprintf output fs vars = Ok vars' ->
  (vars' = vars
   /\ forall j g q, fs !! j = Some g -> matchesAt output g q ->
        v_startPos vars <> -1 /\ v_startPos vars <= q)
  \/ (exists i g p re m args,
        fs !! i = Some g
        /\ title g = Some re /\ FindSubmatchIndex re output = Some m
        /\ m !! 0%nat = Some p
        /\ submatchArgs output (drop 2 m) = Ok args
        /\ (v_startPos vars = -1 \/ p < v_startPos vars)
        /\ 0 <= p <= len output
        /\ vars' = {| v_startPos := p; v_desc := Sprintf (fmt g) args;
                      v_report := from output p; v_format := g |}
        /\ forall j h q, fs !! j = Some h -> matchesAt output h q ->
             p < q \/ (p = q /\ (i <= j)%nat)).
Proof.
  revert vars. induction fs as [|f fs IH]; intros vars; simpl.
  - intros [= <-]. left. split; [done|]. intros j g q Hj. by destruct j.
  - intros (vars1 & Hstep & Hloop)%rbind_Ok.
    apply formatStep_Ok in Hstep
      as [[-> Hnone]|[(p0 & Hm0 & Hsp & Hle & ->)
                     |(p0 & re0 & m0 & args0 & Ht0 & Hf0 & Hp0 & Ha0 & Hsp & Hr0 & ->)]].
    + (* no match *)
      destruct (IH _ Hloop) as [[-> Hall]
        |(i & g & p & re & m & args & Hi & Ht & Hf & Hp & Ha & Hsp & Hr & -> & Hmin)].
      * left. split; [done|]. intros [|j] g q Hj Hq; simpl in Hj.
        -- injection Hj as <-. by destruct (Hnone q).
        -- by eapply Hall.
      * right. exists (S i), g, p, re, m, args. repeat split; try done; try lia.
        intros [|j] h q Hj Hq; simpl in Hj.
        -- injection Hj as <-. by destruct (Hnone q).
        -- destruct (Hmin j h q Hj Hq) as [?|[? ?]]; [by left|right; lia].
    + (* a match that does not take over *)
      destruct (IH _ Hloop) as [[-> Hall]
        |(i & g & p & re & m & args & Hi & Ht & Hf & Hp & Ha & Hsp' & Hr & -> & Hmin)].
      * left. split; [done|]. intros [|j] g q Hj Hq; simpl in Hj.
        -- injection Hj as <-. by rewrite (matchesAt_fun _ _ _ _ Hq Hm0).
        -- by eapply Hall.
      * right. exists (S i), g, p, re, m, args. repeat split; try done; try lia.
        intros [|j] h q Hj Hq; simpl in Hj.
        -- injection Hj as <-. rewrite (matchesAt_fun _ _ _ _ Hq Hm0). left. lia.
        -- destruct (Hmin j h q Hj Hq) as [?|[? ?]]; [by left|right; lia].
    + (* a match that takes over *)
      assert (matchesAt output f p0) as Hm0 by (by exists re0, m0).
      destruct (IH _ Hloop) as [[-> Hall]
        |(i & g & p & re & m & args & Hi & Ht & Hf & Hp & Ha & Hsp' & Hr & -> & Hmin)];
        cbn [v_startPos] in *.
      * right. exists 0%nat, f, p0, re0, m0, args0. repeat split; try done; try lia.
        intros [|j] h q Hj Hq; simpl in Hj.
        -- injection Hj as <-. rewrite (matchesAt_fun _ _ _ _ Hq Hm0). right. lia.
        -- destruct (Hall j h q Hj Hq) as [_ Hle]. 
           destruct (decide (p0 = q)); [right; split; [done|lia]|left; lia].
      * right. exists (S i), g, p, re, m, args.
        assert (p < p0) as Hlt by lia.
        repeat split; try done; try lia.
        intros [|j] h q Hj Hq; simpl in Hj.
        -- injection Hj as <-. rewrite (matchesAt_fun _ _ _ _ Hq Hm0). by left.
        -- destruct (Hmin j h q Hj Hq) as [?|[? ?]]; [by left|right; lia].
Qed.
End FormatLoopProofs.

Section ExtractorPaths.
Variable Sprintf : bytes -> list bytes -> bytes.

Lemma formatLoop_no_match (output : bytes) (fs : list oopsFormat) (vars : extractVars) :
  Forall (fun f => exists re, title f = Some re
                              /\ FindSubmatchIndex re output = None) fs ->
  formatLoop Sprintf output fs vars = Ok vars.
Proof.
  induction 1 as [|f fs (re & Ht & Hf) _ IH]; [done|].
  simpl. unfold formatStep. by rewrite Ht, Hf.
Qed.

(** The fallback block never touches [startPos] and [format], and nothing
    at all once a title has been rendered. *)
Lemma headerFallback_Ok (output : bytes) (o : oops) (vars vars2 : extractVars) :
  headerFallback output o vars = Ok vars2 ->
  v_startPos vars2 = v_startPos vars /\ v_format vars2 = v_format vars
  /\ (v_desc vars <> [] -> vars2 = vars).
Proof.
  intros Hf. destruct (decide (v_desc vars = [])) as [Hd|Hd].
  - unfold headerFallback in Hf. destruct (decide _); [|by injection Hf as <-].
    destruct (decide _); [done|]. by injection Hf as <-.
  - rewrite headerFallback_skipped in Hf by done. by injection Hf as <-.
Qed.

Lemma extractDescription_rendered (output : bytes) (o : oops) (vars : extractVars) :
  formatLoop Sprintf output (formats o) initVars = Ok vars ->
  v_desc vars <> [] ->
  extractDescription Sprintf output o
  = Ok (trimTitle (v_desc vars), v_report vars, v_format vars).
Proof.
  intros Hloop Hd. unfold extractDescription, selectDescription.
  rewrite Hloop. simpl. by rewrite headerFallback_skipped.
Qed.

Lemma extractDescription_fallback (output : bytes) (o : oops) (vars : extractVars)
    (pre post line : bytes) :
  formatLoop Sprintf output (formats o) initVars = Ok vars ->
  v_desc vars = [] ->
  firstOccurrence output (header o) pre post ->
  firstLine (header o ++ post) line ->
  extractDescription Sprintf output o
  = Ok (trimTitle line, header o ++ post, v_format vars).
Proof.
  intros Hloop Hd Hocc Hline. unfold extractDescription, selectDescription.
  rewrite Hloop. simpl. by rewrite (headerFallback_taken _ _ _ pre post line).
Qed.

Lemma extractDescription_panics (output : bytes) (o : oops) (vars : extractVars) :
  formatLoop Sprintf output (formats o) initVars = Ok vars ->
  v_desc vars = [] -> ~ contains output (header o) ->
  extractDescription Sprintf output o = Panic "non matching oops".
Proof.
  intros Hloop Hd Hnc. unfold extractDescription, selectDescription.
  rewrite Hloop. simpl. by rewrite headerFallback_panics.
Qed.

Lemma firstOccurrence_exists (s sep : bytes) :
  contains s sep -> exists pre post, firstOccurrence s sep pre post.
Proof.
  intros Hc. destruct (Index_first s sep Hc) as (pre & post & Heq & _ & Hmin).
  by exists pre, post.
Qed.

End ExtractorPaths.

(** ** The extractor returns *)

Lemma submatchArgs_returns (output : bytes) (gs : list Z) :
  groupsInRange output gs -> exists args, submatchArgs output gs = Ok args.
Proof.
  assert (forall n gs, (length gs <= n)%nat -> groupsInRange output gs ->
                       exists args, submatchArgs output gs = Ok args) as H.
  { induction n as [|n IH]; intros [|lo [|hi gs']] Hn Hg; simpl in *;
      try done; try lia; try (by exists []).
    destruct Hg as (? & ? & ? & Hg). unfold slice_checked.
    rewrite decide_True by done. simpl.
    destruct (IH gs') as [args ->]; [lia|done|]. by eexists. }
  by apply (H (length gs)).
Qed.

Section Totality.
Variable Sprintf : bytes -> list bytes -> bytes.

Lemma formatStep_returns (output : bytes) (vars : extractVars) (f : oopsFormat) :
  wellBehaved output f -> exists vars1, formatStep Sprintf output vars f = Ok vars1.
Proof.
  intros (re & Ht & Hwf). unfold formatStep. rewrite Ht.
  destruct (FindSubmatchIndex re output) as [m|]; [|by eexists].
  destruct (Hwf m eq_refl) as (p & e & gs & -> & Hp & Hg).
  change (index_checked (p :: e :: gs) 0) with (Ok p).
  change (drop 2 (p :: e :: gs)) with gs. cbn [rbind].
  destruct (decide _); [by eexists|].
  destruct (submatchArgs_returns _ _ Hg) as [args ->]. cbn [rbind].
  unfold slice_checked. rewrite decide_True by lia. by eexists.
Qed.

Lemma formatLoop_returns (output : bytes) (fs : list oopsFormat) (vars : extractVars) :
  Forall (wellBehaved output) fs ->
  exists vars', formatLoop Sprintf output fs vars = Ok vars'.
Proof.
  intros Hfs. revert vars. induction Hfs as [|f fs Hf _ IH]; intros vars.
  - by exists vars.
  - simpl. destruct (formatStep_returns output vars f Hf) as [vars1 ->]. apply IH.
Qed.

(** With patterns that keep to the contract and a header that occurs in
    the output, [extractDescription] returns. *)
Lemma extractDescription_returns (output : bytes) (o : oops) :
  Forall (wellBehaved output) (formats o) -> contains output (header o) ->
  exists title rep f, extractDescription Sprintf output o = Ok (title, rep, f).
Proof.
  intros Hfs Hc. destruct (formatLoop_returns output _ initVars Hfs) as [vars Hloop].
  destruct (decide (v_desc vars = [])) as [Hd|Hd].
  - destruct (firstOccurrence_exists _ _ Hc) as (pre & post & Hocc).
    destruct (firstLine_exists (header o ++ post)) as [line Hline].
    rewrite (extractDescription_fallback _ _ _ _ pre post line Hloop) by done.
    by eexists _, _, _.
  - rewrite (extractDescription_rendered _ _ _ _ Hloop) by done. by eexists _, _, _.
Qed.

(** Whenever some format matches, the loop has a winner. *)
Lemma winner_exists (output : bytes) (fs : list oopsFormat) (vars : extractVars)
    (j : nat) (h : oopsFormat) (q : Z) :
  formatLoop Sprintf output fs initVars = Ok vars ->
  fs !! j = Some h -> matchesAt output h q ->
  exists i g p, winner output fs i g p.
Proof.
  intros Hloop Hj Hq.
  destruct (formatLoop_Ok _ _ _ _ _ Hloop) as [[_ Hall]
    |(i & g & p & re & m & args & Hi & Ht & Hf & Hp & _ & _ & _ & _ & Hmin)].
  - by destruct (Hall _ _ _ Hj Hq).
  - exists i, g, p. split; [done|]. split; [by exists re, m|done].
Qed.
End Totality.


(** * Further properties of the engine *)

(** ** Lines and headers *)

Lemma lines_elem_no_LF (s line : bytes) : line ∈ lines s -> LF ∉ line.
Proof.
  revert line. induction s as [|b s IH]; intros line; simpl.
  { by intros ?%elem_of_nil. }
  destruct (decide (b = LF)) as [->|Hb].
  - intros [->|H]%elem_of_cons; [apply not_elem_of_nil|by apply IH].
  - destruct (lines s) as [|l ls] eqn:E.
    + intros ->%list_elem_of_singleton.
      by intros [?|?%elem_of_nil]%elem_of_cons.
    + intros [->|H]%elem_of_cons.
      * intros [?|?]%elem_of_cons; [congruence|].
        eapply IH; [|done]. left.
      * apply IH. by right.
Qed.

Lemma lines_head (s l : bytes) (ls : list bytes) :
  lines s = l :: ls -> exists post, s = l ++ post.
Proof.
  revert l ls. induction s as [|b s IH]; intros l ls; simpl; [done|].
  destruct (decide (b = LF)) as [->|Hb].
  - intros [= <- _]. by exists (LF :: s).
  - destruct (lines s) as [|l' ls'] eqn:E.
    + intros [= <- _]. by exists s.
    + intros [= <- _]. destruct (IH _ _ eq_refl) as (post & ->). by exists post.
Qed.

Lemma lines_elem_contains (s line : bytes) : line ∈ lines s -> contains s line.
Proof.
  revert line. induction s as [|b s IH]; intros line; simpl.
  { by intros ?%elem_of_nil. }
  destruct (decide (b = LF)) as [->|Hb].
  - intros [->|H]%elem_of_cons.
    + by exists [], (LF :: s).
    + destruct (IH _ H) as (pre & post & ->). by exists (LF :: pre), post.
  - destruct (lines s) as [|l ls] eqn:E.
    + intros ->%list_elem_of_singleton. by exists [], s.
    + intros [->|H]%elem_of_cons.
      * destruct (lines_head _ _ _ E) as (post & ->). by exists [], post.
      * destruct (IH line) as (pre & post & ->); [by right|].
        by exists (b :: pre), post.
Qed.

Lemma contains_trans (s line sep : bytes) :
  contains s line -> contains line sep -> contains s sep.
Proof.
  intros (p1 & q1 & ->) (p2 & q2 & ->).
  exists (p1 ++ p2), (q2 ++ q1). by rewrite <- !app_assoc.
Qed.

Lemma contains_LF (line sep : bytes) : contains line sep -> LF ∈ sep -> LF ∈ line.
Proof.
  intros (pre & post & ->) H. rewrite !elem_of_app. auto.
Qed.

Lemma containsCrash_existsb (output : bytes) (oopses : list oops) (ignores : list Regexp) :
  containsCrash output oopses ignores
  = existsb (fun line => anyOops line oopses ignores) (lines output).
Proof.
  unfold containsCrash. rewrite containsCrash_from_lines.
  - unfold from. by rewrite drop_0.
  - pose proof (len_nonneg output). lia.
Qed.

Lemma anyMatch_app (res1 res2 : list Regexp) (line : bytes) :
  anyMatch (res1 ++ res2) line = anyMatch res1 line || anyMatch res2 line.
Proof.
  induction res1 as [|re res1 IH]; [done|]. cbn. by destruct (Match re line).
Qed.

Lemma matchOops_withSuppressions (line : bytes) (o : oops) (ignores : list Regexp) :
  matchOops line o ignores = matchOops line (withSuppressions o ignores) [].
Proof.
  unfold matchOops. cbn [header suppressions withSuppressions anyMatch].
  rewrite anyMatch_app.
  destruct (decide _); [done|].
  by destruct (anyMatch (suppressions o) line), (anyMatch ignores line).
Qed.

Lemma anyOops_withSuppressions (line : bytes) (oopses : list oops) (ignores : list Regexp) :
  anyOops line oopses ignores
  = anyOops line (map (fun o => withSuppressions o ignores) oopses) [].
Proof.
  induction oopses as [|o oopses IH]; [done|]. cbn [map anyOops].
  by rewrite <- matchOops_withSuppressions, IH.
Qed.

(** ** The title and the report *)

Lemma trimTitle_prefix (desc : bytes) : exists rest, desc = trimTitle desc ++ rest.
Proof.
  unfold trimTitle. rewrite truncate_spec.
  destruct (dropCR_spec desc) as [(_ & pre & Hd & ->)|(_ & ->)].
  - exists (drop 180 pre ++ [CR]). by rewrite app_assoc, take_drop.
  - exists (drop 180 desc). by rewrite take_drop.
Qed.

Lemma trimTitle_keeps_prefix (hd rest : bytes) :
  len hd <= maxDescLen -> last hd <> Some CR ->
  exists rest', trimTitle (hd ++ rest) = hd ++ rest'.
Proof.
  intros Hlen Hlast. unfold trimTitle. rewrite truncate_spec.
  assert (exists q, dropCR (hd ++ rest) = hd ++ q) as (q & ->).
  { destruct (dropCR_spec (hd ++ rest)) as [(_ & pre & Hd & ->)|(_ & ->)]; [|by exists rest].
    destruct rest as [|x rest _] using rev_ind.
    - rewrite app_nil_r in Hd. subst hd. by rewrite last_snoc in Hlast.
    - rewrite app_assoc in Hd. apply app_inj_tail in Hd as [<- _]. by exists rest. }
  exists (take (180 - length hd) q). rewrite take_app.
  rewrite take_ge; [done|]. unfold len, maxDescLen in Hlen. lia.
Qed.

Section ExtractorLemmas.
Variable Sprintf : bytes -> list bytes -> bytes.

Lemma extractDescription_Ok (output : bytes) (o : oops) (t rep : bytes) (f : oopsFormat) :
  extractDescription Sprintf output o = Ok (t, rep, f) ->
  exists vars vars2,
    formatLoop Sprintf output (formats o) initVars = Ok vars
    /\ headerFallback output o vars = Ok vars2
    /\ t = trimTitle (v_desc vars2) /\ rep = v_report vars2 /\ f = v_format vars2.
Proof.
  unfold extractDescription, selectDescription.
  intros (vars2 & (vars & Hloop & Hfb)%rbind_Ok & [= <- <- <-])%rbind_Ok.
  by exists vars, vars2.
Qed.

Lemma headerFallback_Ok_taken (output : bytes) (o : oops) (vars vars2 : extractVars) :
  headerFallback output o vars = Ok vars2 -> v_desc vars = [] ->
  exists pre post line,
    firstOccurrence output (header o) pre post
    /\ firstLine (header o ++ post) line
    /\ vars2 = {| v_startPos := v_startPos vars; v_desc := line;
                  v_report := header o ++ post; v_format := v_format vars |}.
Proof.
  intros Hfb Hdesc.
  destruct (decide (Index output (header o) = -1)) as [Hno|Hyes].
  - rewrite headerFallback_panics in Hfb; [done|done|].
    intros Hc%Index_found. done.
  - apply Index_found, firstOccurrence_exists in Hyes as (pre & post & Hfirst).
    destruct (firstLine_exists (header o ++ post)) as (line & Hline).
    rewrite (headerFallback_taken _ _ _ pre post line) in Hfb by done.
    injection Hfb as <-. by exists pre, post, line.
Qed.

Lemma formatLoop_permutation (output : bytes) (fs fs' : list oopsFormat) :
  fs ≡ₚ fs' ->
  Forall (wellBehaved output) fs ->
  (forall f g p, f ∈ fs -> g ∈ fs ->
     matchesAt output f p -> matchesAt output g p -> f = g) ->
  formatLoop Sprintf output fs' initVars = formatLoop Sprintf output fs initVars.
Proof.
  intros Hperm Hwb Hdistinct.
  assert (Forall (wellBehaved output) fs') as Hwb' by (by rewrite <- Hperm).
  destruct (formatLoop_returns Sprintf output fs initVars Hwb) as (vars & Hrun).
  destruct (formatLoop_returns Sprintf output fs' initVars Hwb') as (vars' & Hrun').
  rewrite Hrun, Hrun'. f_equal.
  apply formatLoop_Ok in Hrun as [[-> Hnone]|Hwin];
    apply formatLoop_Ok in Hrun' as [[-> Hnone']|Hwin']; [done|..].
  - destruct Hwin' as (i & g & p & re & m & args & Hi & Ht & Hm & Hp & _).
    apply list_elem_of_lookup_2 in Hi. rewrite <- Hperm in Hi.
    apply list_elem_of_lookup_1 in Hi as (j & Hj).
    destruct (Hnone j g p Hj) as [Hbad _]; [by exists re, m|]. by cbn in Hbad.
  - destruct Hwin as (i & g & p & re & m & args & Hi & Ht & Hm & Hp & _).
    apply list_elem_of_lookup_2 in Hi. rewrite Hperm in Hi.
    apply list_elem_of_lookup_1 in Hi as (j & Hj).
    destruct (Hnone' j g p Hj) as [Hbad _]; [by exists re, m|]. by cbn in Hbad.
  - destruct Hwin as (i & g & p & re & m & args & Hi & Ht & Hm & Hp & Ha & _ & _ & -> & Hmin).
    destruct Hwin' as (i' & g' & p' & re' & m' & args' & Hi' & Ht' & Hm' & Hp' & Ha' & _ & _ & -> & Hmin').
    assert (matchesAt output g p) as Hg by (by exists re, m).
    assert (matchesAt output g' p') as Hg' by (by exists re', m').
    pose proof (list_elem_of_lookup_2 _ _ _ Hi) as Hin.
    pose proof (list_elem_of_lookup_2 _ _ _ Hi') as Hin'.
    rewrite <- Hperm in Hin'.
    assert (p = p') as <-.
    { apply list_elem_of_lookup_1 in Hin' as (k & Hk).
      rewrite Hperm in Hin. apply list_elem_of_lookup_1 in Hin as (k' & Hk').
      specialize (Hmin _ _ _ Hk Hg'). specialize (Hmin' _ _ _ Hk' Hg). lia. }
    assert (g' = g) as -> by (by apply (Hdistinct g' g p)).
    rewrite Ht in Ht'. injection Ht' as <-. rewrite Hm in Hm'. injection Hm' as <-.
    rewrite Ha in Ha'. by injection Ha' as <-.
Qed.

Lemma submatchArgs_unmatched_group (output : bytes) (gs : list Z) (k : nat) (lo hi : Z) :
  gs !! (2 * k)%nat = Some lo -> gs !! (2 * k + 1)%nat = Some hi -> lo < 0 ->
  submatchArgs output gs = Panic "slice bounds out of range".
Proof.
  revert gs. induction k as [|k IH]; intros gs Hlo Hhi Hneg.
  - destruct gs as [|a [|b gs]]; try done. cbn in Hlo, Hhi.
    injection Hlo as ->. cbn [submatchArgs]. unfold slice_checked at 1.
    destruct (decide (0 <= lo /\ lo <= b /\ b <= len output)) as [?|?]; [lia|done].
  - destruct gs as [|a [|b gs]]; try done.
    replace (2 * S k)%nat with (S (S (2 * k))) in Hlo by lia.
    replace (2 * S k + 1)%nat with (S (S (2 * k + 1))) in Hhi by lia.
    cbn in Hlo, Hhi. specialize (IH gs Hlo Hhi Hneg).
    cbn [submatchArgs]. destruct (slice_checked output a b) as [x|msg] eqn:E; cbn.
    + by rewrite IH.
    + unfold slice_checked in E. destruct (decide _); [done|]. by injection E as <-.
Qed.

Lemma formatLoop_app (output : bytes) (fs1 fs2 : list oopsFormat) (vars : extractVars) :
  formatLoop Sprintf output (fs1 ++ fs2) vars
  = (vars1 <- formatLoop Sprintf output fs1 vars ;; formatLoop Sprintf output fs2 vars1).
Proof.
  revert vars. induction fs1 as [|f fs1 IH]; intros vars; [done|].
  cbn [app formatLoop]. destruct (formatStep Sprintf output vars f); [|done].
  cbn [rbind]. apply IH.
Qed.

End ExtractorLemmas.


Lemma literal_wellBehaved (output lit template : bytes) :
  wellBehaved output (mkFormat (literal lit) template).
Proof.
  exists (literal lit). split; [done|]. intros m. cbn.
  destruct (decide (Index output lit = -1)) as [|Hfound]; [done|]. intros [= <-].
  apply Index_found, Index_first in Hfound as (pre & post & Hout & -> & _).
  exists (len pre), (len pre + len lit), []. split; [done|]. split; [|done].
  pose proof (len_nonneg pre). pose proof (len_nonneg post). pose proof (len_nonneg lit).
  rewrite Hout, !len_app. lia.
Qed.

Lemma submatchArgs_lookup (output : bytes) (gs : list Z) (args : list bytes) :
  submatchArgs output gs = Ok args ->
  (2 * length args = length gs)%nat
  /\ forall k lo hi,
       gs !! (2 * k)%nat = Some lo -> gs !! (2 * k + 1)%nat = Some hi ->
       args !! k = Some (sub output lo hi).
Proof.
  remember (length gs) as n eqn:Hn. revert gs Hn args.
  induction n as [n IH] using lt_wf_ind. intros gs Hn args Hargs.
  destruct gs as [|a [|b gs]].
  - injection Hargs as <-. split; [done|]. intros k lo hi Hlo. by destruct k.
  - done.
  - cbn [submatchArgs] in Hargs.
    apply rbind_Ok in Hargs as (x & Hx & Hargs).
    apply rbind_Ok in Hargs as (args' & Hargs' & [= <-]).
    apply slice_checked_Ok in Hx as (_ & _ & _ & ->).
    assert (length gs < n)%nat as Hlt by (rewrite Hn; cbn [length]; lia).
    destruct (IH (length gs) Hlt gs eq_refl args' Hargs') as [Hlen Hall].
    split; [rewrite Hn; cbn [length]; lia|].
    intros [|k] lo hi Hlo Hhi.
    + cbn in Hlo, Hhi. injection Hlo as <-. by injection Hhi as <-.
    + replace (2 * S k)%nat with (S (S (2 * k))) in Hlo by lia.
      replace (2 * S k + 1)%nat with (S (S (2 * k + 1))) in Hhi by lia.
      cbn in Hlo, Hhi. cbn. by apply Hall.
Qed.


(** ** The shape of what [replace] returns *)

Local Open Scope nat_scope.

Lemma length_overwrite_le (a : bytes) (i n : nat) (bs : bytes) :
  length bs <= n -> i + n <= length a -> length (overwrite a i bs) = length a.
Proof. intros. apply length_overwrite. lia. Qed.

Lemma valid_tail (h : heap) (wh : slice) (k : nat) :
  valid h wh -> k <= slen wh ->
  valid h {| arr := arr wh; off := off wh + k; slen := slen wh - k; scap := scap wh - k |}.
Proof.
  intros (? & ? & ?) ?. unfold valid, backing in *. cbn [arr off slen scap]. lia.
Qed.

Section Shape.
Variable slack : nat -> nat -> nat.

Lemma replace_shape_nat (h : heap) (w wh : slice) (s k t : nat) :
  valid h w -> valid h wh -> slen w = s + k + t ->
  exists a,
    replace slack w (Z.of_nat s) (Z.of_nat (s + k)) wh h
    = (if decide (s + slen wh + t <= scap w)
       then Ok ({| arr := arr w; off := off w; slen := s + slen wh + t;
                   scap := scap w |}, <[arr w := a]> h)
       else Ok ({| arr := length h; off := 0; slen := s + slen wh + t;
                   scap := s + slen wh + t + slack (scap w) (s + slen wh + t) |},
                h ++ [a]))
    /\ (s + slen wh + t <= scap w -> length a = length (backing h w)).
Proof.
  intros Hw Hwh Hlen. unfold replace.
  destruct (decide (Z.of_nat (slen wh) >= Z.of_nat (s + k) - Z.of_nat s)%Z) as [Hge|Hlt].
  - assert (k <= slen wh) as Hk by lia.
    pose proof (valid_tail h wh k Hwh Hk) as Htail.
    rewrite (bind_sliceFrom _ _ k) by lia.
    destruct (decide (slen w + (slen wh - k) <= scap w)) as [Hroom|Hfull].
    + rewrite bind_append_in_place by done. cbn [slen].
      destruct (decide (s + slen wh + t <= scap w)) as [_|?]; [|lia].
      destruct Hw as (Hw1 & Hw2 & Hw3).
      destruct w as [aw o n c]. cbn [arr off slen scap] in *. subst n.
      rewrite (bind_sliceFrom _ _ (s + slen wh)) by (cbn [slen]; lia).
      rewrite (bind_sliceFrom _ _ (s + k)) by (cbn [slen]; lia).
      rewrite bind_copy. cbn [arr off slen scap].
      rewrite (bind_sliceFrom _ _ s) by (cbn [slen]; lia).
      rewrite bind_copy. cbn [arr off slen scap]. unfold mret.
      rewrite !list_insert_insert_eq.
      replace (s + k + t + (slen wh - k)) with (s + slen wh + t) by lia.
      eexists. split; [reflexivity|].
      intros _.
      rewrite !(backing_insert_eq _ _ aw) by (rewrite ?length_insert; done).
      unfold backing in *. cbn [arr] in *.
      set (a0 := default [] (h !! aw)) in *.
      set (a1 := overwrite a0 _ _).
      assert (length a1 = length a0) as H1.
      { apply length_overwrite. rewrite length_contents by done. cbn [slen]. lia. }
      set (a2 := overwrite a1 _ _).
      assert (length a2 = length a0) as H2.
      { rewrite <- H1. apply (length_overwrite_le _ _ t); rewrite ?length_take; lia. }
      rewrite <- H2. apply (length_overwrite_le _ _ (slen wh)); rewrite ?length_take; lia.
    + rewrite bind_append_fresh by done. cbn [slen].
      destruct (decide (s + slen wh + t <= scap w)) as [?|_]; [lia|].
      rewrite (bind_sliceFrom _ _ (s + slen wh)) by (cbn [slen]; lia).
      rewrite (bind_sliceFrom _ _ (s + k)) by (cbn [slen]; lia).
      rewrite bind_copy. cbn [arr off slen scap].
      rewrite (bind_sliceFrom _ _ s) by (cbn [slen]; lia).
      rewrite bind_copy. cbn [arr off slen scap]. unfold mret.
      rewrite !list_insert_insert_eq.
      rewrite insert_app_r_alt by lia. rewrite Nat.sub_diag. cbn [insert list_insert].
      replace (slen w + (slen wh - k)) with (s + slen wh + t) by lia.
      eexists. split; [reflexivity|lia].
  - assert (slen wh < k) as Hk by lia.
    destruct Hw as (Hw1 & Hw2 & Hw3).
    destruct (decide (s + slen wh + t <= scap w)) as [_|?]; [|lia].
    destruct w as [aw o n c]. cbn [arr off slen scap] in *. subst n.
    rewrite (bind_sliceFrom _ _ (s + slen wh)) by (cbn [slen]; lia).
    rewrite (bind_sliceFrom _ _ (s + k)) by (cbn [slen]; lia).
    rewrite bind_copy. cbn [arr off slen scap].
    rewrite (bind_sliceTo _ _ (s + slen wh + t)) by (cbn [slen scap]; lia).
    rewrite (bind_sliceFrom _ _ s) by (cbn [slen]; lia).
    rewrite bind_copy. cbn [arr off slen scap]. unfold mret.
    rewrite !list_insert_insert_eq.
    eexists. split; [reflexivity|]. intros _.
    rewrite !(backing_insert_eq _ _ aw) by (rewrite ?length_insert; done).
    unfold backing in *. cbn [arr] in *.
    set (a0 := default [] (h !! aw)) in *.
    set (a1 := overwrite a0 _ _).
    assert (length a1 = length a0) as H1.
    { apply (length_overwrite_le _ _ t); rewrite ?length_take; lia. }
    rewrite <- H1. apply (length_overwrite_le _ _ (slen wh)); rewrite ?length_take; lia.
Qed.

End Shape.

Local Open Scope Z_scope.

Lemma bind_sliceFrom_decide {B} (s : slice) (lo : Z) (k : slice -> M B) (h : heap) :
  (x <~ sliceFrom s lo ;; k x) h
  = if decide (0 <= lo <= Z.of_nat (slen s))
    then k {| arr := arr s; off := off s + Z.to_nat lo;
              slen := slen s - Z.to_nat lo; scap := scap s - Z.to_nat lo |} h
    else Panic "slice bounds out of range".
Proof. unfold mbind, sliceFrom. by destruct (decide _). Qed.

Lemma bind_sliceTo_decide {B} (s : slice) (hi : Z) (k : slice -> M B) (h : heap) :
  (x <~ sliceTo s hi ;; k x) h
  = if decide (0 <= hi <= Z.of_nat (scap s))
    then k {| arr := arr s; off := off s; slen := Z.to_nat hi; scap := scap s |} h
    else Panic "slice bounds out of range".
Proof. unfold mbind, sliceTo. by destruct (decide _). Qed.

Section Range.
Variable slack : nat -> nat -> nat.

Lemma replace_out_of_range (h : heap) (w wh : slice) (s e : Z) :
  valid h wh ->
  ~ (0 <= s /\ s <= e /\ e <= Z.of_nat (slen w)) ->
  replace slack w s e wh h = Panic "slice bounds out of range".
Proof.
  intros Hwh Hout. unfold replace.
  destruct (decide (Z.of_nat (slen wh) >= e - s)) as [Hge|Hlt].
  - rewrite bind_sliceFrom_decide.
    destruct (decide (0 <= e - s <= Z.of_nat (slen wh))) as [Hk|?]; [|done].
    pose proof (valid_tail h wh (Z.to_nat (e - s)) Hwh ltac:(lia)) as Htail.
    destruct (decide (slen w + (slen wh - Z.to_nat (e - s)) <= scap w)%nat) as [Hroom|Hfull].
    + rewrite bind_append_in_place by done. cbn [slen].
      rewrite !bind_sliceFrom_decide. cbn [slen].
      destruct (decide (0 <= s + Z.of_nat (slen wh)
                        <= Z.of_nat (slen w + (slen wh - Z.to_nat (e - s))))) as [?|?]; [|done].
      destruct (decide (0 <= e <= Z.of_nat (slen w + (slen wh - Z.to_nat (e - s))))) as [?|?]; [|done].
      rewrite bind_copy, bind_sliceFrom_decide. cbn [slen].
      destruct (decide (0 <= s <= Z.of_nat (slen w + (slen wh - Z.to_nat (e - s))))) as [?|?]; [|done].
      lia.
    + rewrite bind_append_fresh by done. cbn [slen].
      rewrite !bind_sliceFrom_decide. cbn [slen].
      destruct (decide (0 <= s + Z.of_nat (slen wh)
                        <= Z.of_nat (slen w + (slen wh - Z.to_nat (e - s))))) as [?|?]; [|done].
      destruct (decide (0 <= e <= Z.of_nat (slen w + (slen wh - Z.to_nat (e - s))))) as [?|?]; [|done].
      rewrite bind_copy, bind_sliceFrom_decide. cbn [slen].
      destruct (decide (0 <= s <= Z.of_nat (slen w + (slen wh - Z.to_nat (e - s))))) as [?|?]; [|done].
      lia.
  - rewrite !bind_sliceFrom_decide.
    destruct (decide (0 <= s + Z.of_nat (slen wh) <= Z.of_nat (slen w))) as [?|?]; [|done].
    destruct (decide (0 <= e <= Z.of_nat (slen w))) as [?|?]; [|done].
    rewrite bind_copy, bind_sliceTo_decide.
    destruct (decide (0 <= Z.of_nat (slen w) - (e - s - Z.of_nat (slen wh))
                      <= Z.of_nat (scap w))) as [?|?]; [|done].
    rewrite bind_sliceFrom_decide. cbn [slen].
    destruct (decide (0 <= s <= Z.of_nat (Z.to_nat (Z.of_nat (slen w)
                                                - (e - s - Z.of_nat (slen wh)))))) as [?|?]; [|done].
    lia.
Qed.

Lemma replace_shape (h : heap) (w wh : slice) (s e : Z) :
  valid h w -> valid h wh ->
  0 <= s -> s <= e -> e <= Z.of_nat (slen w) ->
  exists a,
    replace slack w s e wh h
    = (if decide (Z.of_nat (slen w) - (e - s) + Z.of_nat (slen wh) <= Z.of_nat (scap w))
       then Ok ({| arr := arr w; off := off w;
                   slen := Z.to_nat (Z.of_nat (slen w) - (e - s) + Z.of_nat (slen wh));
                   scap := scap w |}, <[arr w := a]> h)
       else Ok ({| arr := length h; off := 0;
                   slen := Z.to_nat (Z.of_nat (slen w) - (e - s) + Z.of_nat (slen wh));
                   scap := (Z.to_nat (Z.of_nat (slen w) - (e - s) + Z.of_nat (slen wh))
                            + slack (scap w)
                                (Z.to_nat (Z.of_nat (slen w) - (e - s) + Z.of_nat (slen wh))))%nat |},
                h ++ [a]))
    /\ (Z.of_nat (slen w) - (e - s) + Z.of_nat (slen wh) <= Z.of_nat (scap w) ->
        length a = length (backing h w)).
Proof.
  intros Hw Hwh Hs Hse He.
  destruct (replace_shape_nat slack h w wh (Z.to_nat s) (Z.to_nat (e - s))
              (slen w - Z.to_nat e) Hw Hwh) as (a & Hrun & Hlen); [lia|].
  rewrite Z2Nat.id in Hrun by lia.
  replace (Z.of_nat (Z.to_nat s + Z.to_nat (e - s))) with e in Hrun by lia.
  replace (Z.to_nat s + slen wh + (slen w - Z.to_nat e))%nat
    with (Z.to_nat (Z.of_nat (slen w) - (e - s) + Z.of_nat (slen wh))) in * by lia.
  exists a. split.
  - rewrite Hrun.
    destruct (decide (_ <= _)%nat) as [?|?]; destruct (decide (_ <= _)) as [?|?];
      (done || lia).
  - intros H. apply Hlen. lia.
Qed.

End Range.

Lemma valid_insert_ne (h : heap) (x : slice) (i : nat) (a : bytes) :
  arr x <> i -> valid h x -> valid (<[i := a]> h) x.
Proof.
  intros Hne (? & ? & ?). unfold valid. rewrite length_insert, backing_insert_ne by done.
  done.
Qed.

Lemma valid_app (h : heap) (x : slice) (a : bytes) :
  valid h x -> valid (h ++ [a]) x.
Proof.
  intros (? & ? & ?). unfold valid. rewrite length_app, backing_app_l by done.
  cbn. split; [lia|done].
Qed.

Lemma contents_app (h : heap) (x : slice) (a : bytes) :
  valid h x -> contents (h ++ [a]) x = contents h x.
Proof. intros (? & _). unfold contents. by rewrite backing_app_l. Qed.

Local Open Scope nat_scope.

Section Fresh.
Variable slack : nat -> nat -> nat.

Lemma replace_fresh_nat (h : heap) (w wh : slice) (s k t : nat) :
  valid h w -> valid h wh -> slen w = s + k + t ->
  scap w < s + slen wh + t ->
  exists res h',
    replace slack w (Z.of_nat s) (Z.of_nat (s + k)) wh h = Ok (res, h')
    /\ valid h' res
    /\ contents h' res
       = take s (contents h w) ++ contents h wh ++ drop (s + k) (contents h w).
Proof.
  intros Hw Hwh Hlen Hfull. unfold replace.
  assert (k <= slen wh) as Hk by (destruct Hw as (? & ? & ?); lia).
  destruct (decide _) as [_|?]; [|lia].
  pose proof (valid_tail h wh k Hwh Hk) as Htail.
  rewrite (bind_sliceFrom _ _ k) by lia.
  rewrite bind_append_fresh by (done || (cbn [slen]; lia)). cbn [slen].
  set (h0 := h ++ _).
  set (w0 := {| arr := length h; off := 0; slen := slen w + (slen wh - k);
                scap := _ |}).
  pose proof (length_contents _ _ Hw) as Hbuf.
  destruct (grow_rest h0 w0 wh s k t) as (h' & Hrun & Hv & Hc).
  - unfold valid, h0, w0. cbn [arr off slen scap].
    rewrite backing_app_new by done.
    rewrite !length_app, length_replicate, Hbuf, length_contents by done.
    cbn [length slen]. lia.
  - destruct Hwh as (? & ? & ?). unfold valid, h0.
    rewrite length_app, backing_app_l by done. lia.
  - destruct Hwh as (? & _). cbn [arr w0]. lia.
  - done.
  - cbn [slen w0]. lia.
  - rewrite Hrun. exists w0, h'. split; [done|]. split; [done|].
    assert (contents h0 wh = contents h wh) as Ewh.
    { unfold contents, h0. rewrite backing_app_l; [done|by destruct Hwh]. }
    assert (take (s + k + t) (contents h0 w0) = contents h w) as Ew.
    { unfold contents at 1. unfold h0. rewrite backing_app_new by done.
      cbn [off slen w0]. rewrite drop_0, take_take.
      replace ((s + k + t) `min` (slen w + (slen wh - k)))
        with (length (contents h w)) by lia.
      by rewrite take_app_length. }
    by rewrite Hc, Ewh, Ew.
Qed.

End Fresh.

Local Open Scope Z_scope.

Lemma sub_splice_l (a b c : bytes) (s : Z) :
  len a = s -> sub (a ++ b ++ c) 0 s = a.
Proof.
  intros <-. rewrite sub_0. unfold len. rewrite Nat2Z.id. by rewrite take_app_length.
Qed.

Lemma from_splice_r (a b c : bytes) (s : Z) :
  len a = s -> from (a ++ b ++ c) (s + len b) = c.
Proof.
  intros <-. unfold from, len.
  replace (Z.to_nat (Z.of_nat (length a) + Z.of_nat (length b)))
    with (length (a ++ b)) by (rewrite length_app; lia).
  by rewrite app_assoc, drop_app_length.
Qed.

Lemma sub_split3 (c : bytes) (s e : Z) :
  0 <= s -> s <= e -> e <= len c ->
  sub c 0 s ++ sub c s e ++ from c e = c.
Proof.
  intros Hs Hse He. unfold sub, from. rewrite drop_0, Z.sub_0_r.
  rewrite <- (take_drop (Z.to_nat s) c) at 4. f_equal.
  rewrite <- (take_drop (Z.to_nat (e - s)) (drop (Z.to_nat s) c)) at 2. f_equal.
  rewrite drop_drop. f_equal. lia.
Qed.

Section ReplaceFresh.
Variable slack : nat -> nat -> nat.

Lemma replace_fresh (h : heap) (w wh : slice) (s e : Z) :
  valid h w -> valid h wh ->
  0 <= s -> s <= e -> e <= Z.of_nat (slen w) ->
  Z.of_nat (scap w) < Z.of_nat (slen w) - (e - s) + Z.of_nat (slen wh) ->
  exists res h',
    replace slack w s e wh h = Ok (res, h')
    /\ valid h' res
    /\ contents h' res = sub (contents h w) 0 s ++ contents h wh ++ from (contents h w) e.
Proof.
  intros Hw Hwh Hs Hse He Hfull.
  destruct (replace_fresh_nat slack h w wh (Z.to_nat s) (Z.to_nat (e - s))
              (slen w - Z.to_nat e) Hw Hwh) as (res & h' & Hrun & Hv & Hc); [lia|lia|].
  rewrite Z2Nat.id in Hrun by lia.
  replace (Z.of_nat (Z.to_nat s + Z.to_nat (e - s))) with e in Hrun by lia.
  exists res, h'. split; [done|]. split; [done|].
  rewrite Hc. unfold sub, from. rewrite drop_0, Z.sub_0_r.
  by replace (Z.to_nat s + Z.to_nat (e - s))%nat with (Z.to_nat e) by lia.
Qed.

End ReplaceFresh.

(** ** [strings.Replace] and the placeholders *)

(** The two equations of the loop of [strings.Replace]: a string without
    an instance of [old] is returned as it is; otherwise the text in front
    of the first instance is kept, [new] is written, and the rest is
    processed from the end of that instance on. *)
Lemma replaceFrom_skip (x post old new : bytes) :
  replaceFrom (length x) (x ++ post) old new = replaceFrom 0 post old new.
Proof. induction x as [|c x IH]; [done|]. exact IH. Qed.

Lemma ReplaceAll_absent (s old new : bytes) :
  ~ contains s old -> ReplaceAll s old new = s.
Proof.
  unfold ReplaceAll. induction s as [|c s IH]; intros Hno; [done|].
  cbn [replaceFrom]. destruct (HasPrefix (c :: s) old) eqn:E.
  - apply HasPrefix_spec in E as (post & E). exfalso. apply Hno. by exists [], post.
  - f_equal. apply IH. intros (pre & post & ->). apply Hno. by exists (c :: pre), post.
Qed.

Lemma ReplaceAll_first (s old new pre post : bytes) :
  old <> [] -> firstOccurrence s old pre post ->
  ReplaceAll s old new = pre ++ new ++ ReplaceAll post old new.
Proof.
  intros Hold. unfold ReplaceAll. revert s.
  induction pre as [|c pre IH]; intros s [-> Hmin].
  - destruct old as [|d old]; [done|]. cbn [app replaceFrom].
    assert (HasPrefix (d :: old ++ post) (d :: old) = true) as ->.
    { apply HasPrefix_spec. by exists post. }
    replace (length (d :: old) - 1)%nat with (length old) by (cbn [length]; lia).
    by rewrite replaceFrom_skip.
  - cbn [app replaceFrom]. destruct (HasPrefix _ old) eqn:E.
    + apply HasPrefix_spec in E as (post' & E).
      specialize (Hmin [] post' E). rewrite len_nil, len_cons in Hmin.
      pose proof (len_nonneg pre). lia.
    + f_equal. apply IH. split; [done|]. intros pre' post' E'.
      specialize (Hmin (c :: pre') post'). rewrite !len_cons in Hmin.
      cbn [app] in Hmin. rewrite E' in Hmin. specialize (Hmin eq_refl). lia.
Qed.

Lemma replaceFrom_text (t rest old new : bytes) (d : byte) (old' : bytes) :
  old = d :: old' -> d ∉ t ->
  replaceFrom 0 (t ++ rest) old new = t ++ replaceFrom 0 rest old new.
Proof.
  intros -> Hd. induction t as [|c t IH]; [done|].
  cbn [app replaceFrom HasPrefix].
  destruct (decide (d = c)) as [->|_]; [exfalso; apply Hd; left|].
  f_equal. apply IH. intros ?. apply Hd. by right.
Qed.

Lemma ReplaceAll_piece (k : token) (p : piece) (rest : bytes) :
  plainText p ->
  ReplaceAll (written p ++ rest) (placeholder k) (fragment k)
  = written (substitute k p) ++ ReplaceAll rest (placeholder k) (fragment k).
Proof.
  intros Hp. unfold ReplaceAll. destruct p as [t|k'].
  - cbn [written substitute].
    destruct k; (eapply replaceFrom_text; [reflexivity|exact Hp]).
  - destruct k, k'; reflexivity.
Qed.

Lemma plainText_substitute (k : token) (p : piece) :
  plainText p -> plainText (substitute k p).
Proof.
  destruct p as [t|k']; [done|]. intros _. cbn.
  destruct (sameToken k' k); [|done]. cbn.
  destruct k; vm_compute; intros H;
    repeat (apply elem_of_cons in H as [H|H]; [done|]); by apply elem_of_nil in H.
Qed.

Lemma ReplaceAll_template (k : token) (ps : list piece) :
  Forall plainText ps ->
  ReplaceAll (template ps) (placeholder k) (fragment k)
  = template (map (substitute k) ps).
Proof.
  induction 1 as [|p ps Hp _ IH]; [done|].
  unfold template in *. cbn [map concat].
  by rewrite ReplaceAll_piece, IH.
Qed.

Lemma template_all_substituted (ps : list piece) :
  template (map (substitute SRC) (map (substitute FUNC)
              (map (substitute PC) (map (substitute ADDR) ps))))
  = expansion ps.
Proof.
  unfold template, expansion. induction ps as [|p ps IH]; [done|].
  cbn [map concat]. rewrite IH. f_equal.
  destruct p as [t|[]]; reflexivity.
Qed.


(** Instances are taken from left to right and do not overlap; the text
    that a replacement writes is not searched again. *)
Example ReplaceAll_examples :
  ReplaceAll (bytesOf "aaa") (bytesOf "aa") (bytesOf "b") = bytesOf "ba"
  /\ ReplaceAll (bytesOf "abab") (bytesOf "ab") (bytesOf "aab") = bytesOf "aabaab"
  /\ ReplaceAll (bytesOf "at {{PC}} and {{PC}}") (bytesOf "{{PC}}") (bytesOf "pc")
     = bytesOf "at pc and pc"
  /\ len (bytesOf "\[\<[0-9a-f]+\>\]") = 17.
Proof. by vm_compute. Qed.

(** * The claims *)

(** ** Crash detector and reporter construction *)

(** C2.  [containsCrash] returns [true] exactly when some line of the
    output (split at ['\n'], a final partial line included) and some
    registered signature are such that the line contains the header and is
    matched by no suppression pattern of the signature and by no ignore
    pattern; it returns [false] exactly when no line and signature are. *)
Theorem containsCrash_iff (output : bytes) (oopses : list oops)
    (ignores : list Regexp) :
  (containsCrash output oopses ignores = true
   <-> exists line o, line ∈ lines output /\ o ∈ oopses /\ accepted line o ignores)
  /\ (containsCrash output oopses ignores = false
      <-> forall line o, line ∈ lines output -> o ∈ oopses ->
            ~ accepted line o ignores).
Proof.
  pose proof (containsCrash_accepts output oopses ignores) as Hiff.
  split; [done|]. rewrite <- not_true_iff_false, Hiff. split.
  - intros Hno line o Hl Ho Ha. apply Hno. by exists line, o.
  - intros Hall (line & o & Hl & Ho & Ha). by apply (Hall line o).
Qed.

(** The lines of some buffers. *)
Example lines_examples :
  lines (bytesOf "a" ++ [LF] ++ bytesOf "b") = [bytesOf "a"; bytesOf "b"]
  /\ lines (bytesOf "a" ++ [LF]) = [bytesOf "a"]
  /\ lines (bytesOf "a" ++ [LF; LF] ++ bytesOf "b") = [bytesOf "a"; []; bytesOf "b"]
  /\ lines [LF] = [[]]
  /\ lines [] = [].
Proof. by vm_compute. Qed.

(** C10.  A signature with an empty header and no suppressions accepts,
    at offset 0, every line that no ignore pattern matches; once it is
    registered, [containsCrash] is [true] for every non-empty output of
    which some line is matched by no ignore pattern (every non-empty output
    when there are no ignore patterns), and [false] for the empty
    output. *)
Theorem empty_header_accepts_every_line (o : oops) (ignores : list Regexp) :
  header o = [] -> suppressions o = [] ->
  (forall line,
     (forall re, re ∈ ignores -> Match re line = false) ->
     matchOops line o ignores = 0)
  /\ (forall oopses output,
        o ∈ oopses -> output <> [] ->
        (exists line, line ∈ lines output
                      /\ forall re, re ∈ ignores -> Match re line = false) ->
        containsCrash output oopses ignores = true)
  /\ (forall oopses output,
        o ∈ oopses -> output <> [] -> containsCrash output oopses [] = true)
  /\ (forall oopses, containsCrash [] oopses ignores = false).
Proof.
  intros Hh Hs.
  assert (forall ign line, (forall re, re ∈ ign -> Match re line = false) ->
                           accepted line o ign) as Hacc.
  { intros ign line Hi. split; [|split; [|done]].
    - exists [], line. by rewrite Hh.
    - rewrite Hs. intros re Hre. by apply elem_of_nil in Hre. }
  split; [|split; [|split]].
  - intros line Hi. unfold matchOops. rewrite Hh, Hs, Index_empty_sep. simpl.
    apply anyMatch_false in Hi. by rewrite Hi.
  - intros oopses output Ho _ (line & Hl & Hi).
    apply containsCrash_accepts. exists line, o. auto.
  - intros oopses output Ho [line Hl]%lines_nonempty.
    apply containsCrash_accepts. exists line, o. split; [done|]. split; [done|].
    apply Hacc. intros re Hre. by apply elem_of_nil in Hre.
  - intros oopses. apply not_true_iff_false. rewrite containsCrash_accepts.
    intros (line & o' & Hl & _). by apply elem_of_nil in Hl.
Qed.


Lemma empty_header_accepts_every_line_witness :
  (forall line,
     (forall re, re ∈ [] -> Match re line = false) ->
     matchOops line {| header := []; formats := []; suppressions := [] |} [] = 0)
  /\ (forall oopses output,
        {| header := []; formats := []; suppressions := [] |} ∈ oopses ->
        output <> [] ->
        (exists line, line ∈ lines output
                      /\ forall re, re ∈ [] -> Match re line = false) ->
        containsCrash output oopses [] = true)
  /\ (forall oopses output,
        {| header := []; formats := []; suppressions := [] |} ∈ oopses ->
        output <> [] -> containsCrash output oopses [] = true)
  /\ (forall oopses, containsCrash [] oopses [] = false).
Proof.
  apply (empty_header_accepts_every_line
           {| header := []; formats := []; suppressions := [] |} []); reflexivity.
Defined.

(** C8.  For an [os] that is none of the six identifiers the table of
    constructors has no entry, and [NewReporter] returns a nil [Reporter]
    and the error [unknown os: <os>], whatever the other arguments and
    whatever the constructors are: none of them is applied. *)
Theorem NewReporter_unknown_os (Symbol : Type)
    (ctorAkaros ctorLinux ctorFreebsd ctorNetbsd ctorFuchsia ctorWindows : fn Symbol)
    (os kernelSrc kernelObj : string) (symbols : gmap string (list Symbol))
    (ignores : list Regexp) :
  os ∉ ["akaros"; "linux"; "freebsd"; "netbsd"; "fuchsia"; "windows"]%string ->
  ctors Symbol ctorAkaros ctorLinux ctorFreebsd ctorNetbsd ctorFuchsia ctorWindows !! os
  = None
  /\ NewReporter Symbol ctorAkaros ctorLinux ctorFreebsd ctorNetbsd ctorFuchsia
       ctorWindows os kernelSrc kernelObj symbols ignores
     = (None, Some ("unknown os: " ++ os)%string).
Proof.
  intros Hos. rewrite !not_elem_of_cons in Hos.
  destruct Hos as (? & ? & ? & ? & ? & ? & _).
  split.
  - unfold ctors. rewrite !lookup_insert_ne by done. apply lookup_empty.
  - unfold NewReporter, ctors. rewrite !lookup_insert_ne by done.
    by rewrite lookup_empty.
Qed.

Lemma NewReporter_unknown_os_witness :
  ctors unit (fun _ _ _ _ => (None, None)) (fun _ _ _ _ => (None, None))
    (fun _ _ _ _ => (None, None)) (fun _ _ _ _ => (None, None))
    (fun _ _ _ _ => (None, None)) (fun _ _ _ _ => (None, None)) !! "plan9"%string
  = None
  /\ NewReporter unit (fun _ _ _ _ => (None, None)) (fun _ _ _ _ => (None, None))
       (fun _ _ _ _ => (None, None)) (fun _ _ _ _ => (None, None))
       (fun _ _ _ _ => (None, None)) (fun _ _ _ _ => (None, None))
       "plan9" "/src" "" ∅ []
     = (None, Some "unknown os: plan9"%string).
Proof.
  apply (NewReporter_unknown_os unit). rewrite !not_elem_of_cons.
  repeat split; try done. apply not_elem_of_nil.
Defined.

(** For a supported [os] the constructor of the table is applied, to the
    source directory twice when no build directory is given. *)
Example NewReporter_linux (Symbol : Type)
    (ctorAkaros ctorLinux ctorFreebsd ctorNetbsd ctorFuchsia ctorWindows : fn Symbol)
    (kernelSrc : string) (symbols : gmap string (list Symbol))
    (ignores : list Regexp) :
  NewReporter Symbol ctorAkaros ctorLinux ctorFreebsd ctorNetbsd ctorFuchsia
    ctorWindows "linux" kernelSrc "" symbols ignores
  = ctorLinux kernelSrc kernelSrc symbols ignores.
Proof. done. Qed.

(** ** Redactor *)

(** C4.  Replacing [s:e] of a buffer by a byte sequence stored elsewhere
    keeps the first [s] bytes, continues after the replacement with the
    bytes that followed [e], and yields [len(buf) - (e-s) + len(r)] bytes,
    the replacement lying in between;
    this holds whatever spare capacity the buffer has, that is both when
    [append] works in place and when it moves the buffer. *)
Theorem replace_preserves_outside (slack : nat -> nat -> nat)
    (buf spare r : bytes) (s e : Z) :
  0 <= s -> s <= e -> e <= len buf ->
  exists res h',
    replace slack (firstBuffer buf spare) s e (secondBuffer r)
      (twoBuffers buf spare r) = Ok (res, h')
    /\ sub (contents h' res) 0 s = sub buf 0 s
    /\ from (contents h' res) (s + len r) = from buf e
    /\ len (contents h' res) = len buf - (e - s) + len r
    /\ sub (contents h' res) s (s + len r) = r.
Proof.
  intros Hs Hse He.
  destruct (valid_twoBuffers buf spare r) as [Hw Hwh].
  destruct (replace_separate slack _ _ _ s e Hw Hwh) as (res & h' & Hrun & _ & Hc);
    [done..|].
  rewrite contents_firstBuffer, contents_secondBuffer in Hc.
  exists res, h'. split; [done|]. rewrite Hc. unfold sub, from, len in *.
  rewrite !drop_0, !Z.sub_0_r.
  assert (length (take (Z.to_nat s) buf) = Z.to_nat s) as Hl.
  { rewrite length_take. lia. }
  split; [|split; [|split]].
  - by rewrite take_app_length'.
  - replace (Z.to_nat (s + Z.of_nat (length r))) with (Z.to_nat s + length r)%nat by lia.
    by rewrite drop_app_add', drop_app_length.
  - rewrite !length_app, length_take, length_drop. lia.
  - rewrite drop_app_length' by done.
    replace (Z.to_nat (s + Z.of_nat (length r) - s)) with (length r) by lia.
    by rewrite take_app_length.
Qed.

Lemma replace_preserves_outside_witness :
  exists res h',
    replace (fun _ _ => 0%nat)
      (firstBuffer (bytesOf "abcdef") (bytesOf "zz")) 1 2
      (secondBuffer (bytesOf "XYZ"))
      (twoBuffers (bytesOf "abcdef") (bytesOf "zz")
         (bytesOf "XYZ")) = Ok (res, h')
    /\ sub (contents h' res) 0 1 = sub (bytesOf "abcdef") 0 1
    /\ from (contents h' res) (1 + len (bytesOf "XYZ"))
       = from (bytesOf "abcdef") 2
    /\ len (contents h' res)
       = len (bytesOf "abcdef") - (2 - 1) + len (bytesOf "XYZ")
    /\ sub (contents h' res) 1 (1 + len (bytesOf "XYZ"))
       = bytesOf "XYZ".
Proof.
  apply (replace_preserves_outside (fun _ _ => 0%nat)
           (bytesOf "abcdef") (bytesOf "zz")
           (bytesOf "XYZ") 1 2); unfold len; cbn; lia.
Defined.

(** The replacement is meant to be stored apart from the buffer.  When it
    is a part of the buffer that lies behind the replaced range, and the
    buffer has room to grow in place, the tail is moved over it before it
    is copied: replacing [a] in [abcdef] by that buffer's own [cd] yields
    [bcbcdef]. *)
Example replace_shared_storage :
  let buf := firstBuffer (bytesOf "abcdef") (bytesOf "zzzz") in
  exists res h',
    (what <~ sliceRange buf 2 4 ;; replace (fun _ _ => 0%nat) buf 0 1 what)
      (twoBuffers (bytesOf "abcdef") (bytesOf "zzzz") []) = Ok (res, h')
    /\ contents h' res = bytesOf "bcbcdef".
Proof. eexists _, _. by vm_compute. Qed.

(** C5.  Replacing a range of a buffer by that same range, [buf[s:e]]
    sharing the storage of [buf], returns [buf] itself and leaves every
    array of the heap as it was; so the result equals [buf] byte for
    byte. *)
Theorem replace_range_with_itself (slack : nat -> nat -> nat)
    (h : heap) (buf : slice) (s e : Z) :
  valid h buf -> 0 <= s -> s <= e -> e <= Z.of_nat (slen buf) ->
  exists res h',
    (what <~ sliceRange buf s e ;; replace slack buf s e what) h = Ok (res, h')
    /\ contents h' res = contents h buf
    /\ res = buf /\ h' = h.
Proof.
  intros Hv Hs Hse He. exists buf, h.
  pose proof (replace_self_nat slack h buf (Z.to_nat s) (Z.to_nat (e - s))
                (slen buf - Z.to_nat e) Hv) as Hrun.
  rewrite Z2Nat.id in Hrun by lia.
  replace (Z.of_nat (Z.to_nat s + Z.to_nat (e - s))) with e in Hrun by lia.
  rewrite Hrun by lia. done.
Qed.

Lemma replace_range_with_itself_witness :
  exists res h',
    (what <~ sliceRange {| arr := 0; off := 0; slen := 6; scap := 8 |} 1 4 ;;
     replace (fun _ _ => 0%nat) {| arr := 0; off := 0; slen := 6; scap := 8 |} 1 4 what)
      [bytesOf "abcdefzz"] = Ok (res, h')
    /\ contents h' res
       = contents [bytesOf "abcdefzz"] {| arr := 0; off := 0; slen := 6; scap := 8 |}
    /\ res = {| arr := 0; off := 0; slen := 6; scap := 8 |}
    /\ h' = [bytesOf "abcdefzz"].
Proof.
  apply (replace_range_with_itself (fun _ _ => 0%nat)
           [bytesOf "abcdefzz"]
           {| arr := 0; off := 0; slen := 6; scap := 8 |} 1 4);
    unfold valid, backing; cbn; lia.
Defined.

(** ** Crash extractor *)

Section ExtractorClaims.
Variable Sprintf : bytes -> list bytes -> bytes.

(** C1, amended.  For a format that wins, that is, among the formats
    whose title pattern matches, the one with the smallest match offset
    and, among those, the first in the list: whenever the loop over the
    formats completes, [startPos] is the offset of the winner, [format]
    the winner and [report] the output from that offset on; whenever
    [extractDescription] returns, the format returned is the winner, and
    when the title rendered for the winner is not empty the title is that
    rendering after the two adjustments and the report is the output from
    the winner's offset on.  The loop completes when every title pattern
    keeps to the contract of the regexp library with all its groups
    taking part in the match, and [extractDescription] then returns when
    the rendering is not empty or the header occurs in the output. *)
Theorem earliest_match_wins (output : bytes) (o : oops)
    (i : nat) (g : oopsFormat) (p : Z) :
  winner output (formats o) i g p ->
  (forall vars,
     formatLoop Sprintf output (formats o) initVars = Ok vars ->
     v_startPos vars = p /\ v_format vars = g /\ v_report vars = from output p)
  /\ (forall title rep f,
        extractDescription Sprintf output o = Ok (title, rep, f) ->
        f = g
        /\ exists vars,
             formatLoop Sprintf output (formats o) initVars = Ok vars
             /\ (v_desc vars <> [] ->
                   title = trimTitle (v_desc vars) /\ rep = from output p))
  /\ (Forall (wellBehaved output) (formats o) ->
        exists vars,
          formatLoop Sprintf output (formats o) initVars = Ok vars
          /\ (v_desc vars <> [] \/ contains output (header o) ->
                exists title rep f,
                  extractDescription Sprintf output o = Ok (title, rep, f))).
Proof.
  intros (Hi & Hg & Hmin).
  assert (forall vars,
            formatLoop Sprintf output (formats o) initVars = Ok vars ->
            v_startPos vars = p /\ v_format vars = g
            /\ v_report vars = from output p) as Hvars.
  { intros vars Hloop.
    destruct (formatLoop_Ok _ _ _ _ _ Hloop) as [[-> Hall]
      |(i' & g' & p' & re & m & args & Hi' & Ht & Hf & Hp & Ha & _ & Hr & -> & Hmin')].
    { destruct (Hall _ _ _ Hi Hg) as [Hsp _]. done. }
    assert (matchesAt output g' p') as Hg' by (by exists re, m).
    pose proof (Hmin _ _ _ Hi' Hg') as H1. pose proof (Hmin' _ _ _ Hi Hg) as H2.
    assert (p' = p /\ i' = i) as [-> ->] by lia.
    assert (g' = g) as -> by congruence.
    done. }
  split; [exact Hvars|]. split.
  - intros t r f Hret.
    destruct (extractDescription_Ok Sprintf _ _ _ _ _ Hret)
      as (vars & vars2 & Hloop & Hfb & -> & -> & ->).
    destruct (Hvars vars Hloop) as (_ & Hf & Hr).
    apply headerFallback_Ok in Hfb as (_ & Hf2 & Hsame).
    split; [congruence|]. exists vars. split; [done|].
    intros Hd. rewrite (Hsame Hd). by split.
  - intros Hwb.
    destruct (formatLoop_returns Sprintf output (formats o) initVars Hwb) as (vars & Hloop).
    exists vars. split; [done|]. intros [Hd|Hc].
    + rewrite (extractDescription_rendered _ _ _ _ Hloop Hd). eauto.
    + by apply extractDescription_returns.
Qed.

(** C3, amended.  When no title pattern matches: if the header occurs in
    the output, [extractDescription] returns, as title, the line that
    starts at the first occurrence of the header after the two
    adjustments of [trimTitle] (one trailing ['\r'] dropped, at most 180
    bytes kept), as report the output from that occurrence on, and the
    zero format; if the header does not occur, it panics. *)
Theorem fallback_title (output : bytes) (o : oops) :
  Forall (fun f => exists re, title f = Some re
                              /\ FindSubmatchIndex re output = None) (formats o) ->
  (contains output (header o) ->
     exists pre post line,
       firstOccurrence output (header o) pre post
       /\ firstLine (header o ++ post) line
       /\ extractDescription Sprintf output o
          = Ok (trimTitle line, header o ++ post, zeroFormat))
  /\ (~ contains output (header o) ->
        extractDescription Sprintf output o = Panic "non matching oops").
Proof.
  intros Hnone.
  pose proof (formatLoop_no_match Sprintf output _ initVars Hnone) as Hloop. split.
  - intros Hc. destruct (firstOccurrence_exists _ _ Hc) as (pre & post & Hocc).
    destruct (firstLine_exists (header o ++ post)) as [line Hline].
    exists pre, post, line. split; [done|]. split; [done|].
    by rewrite (extractDescription_fallback _ _ _ _ pre post line Hloop).
  - intros Hnc. by apply (extractDescription_panics _ _ _ _ Hloop).
Qed.

(** C6, amended.  The title returned is the selected title with one
    trailing ['\r'] dropped, if it has one, and then cut to 180 bytes; it
    ends with ['\r'] only if the selected title ends with two ['\r'], or
    is longer than 180 bytes and has a ['\r'] as its 180th byte. *)
Theorem title_trailing_CR (output : bytes) (o : oops)
    (title rep : bytes) (f : oopsFormat) :
  extractDescription Sprintf output o = Ok (title, rep, f) ->
  exists vars,
    selectDescription Sprintf output o = Ok vars
    /\ title = truncate (dropCR (v_desc vars))
    /\ (last (v_desc vars) <> Some CR -> dropCR (v_desc vars) = v_desc vars)
    /\ (forall pre, v_desc vars = pre ++ [CR] -> dropCR (v_desc vars) = pre)
    /\ (last title = Some CR ->
          (exists pre, v_desc vars = pre ++ [CR; CR])
          \/ (len (v_desc vars) > maxDescLen
              /\ v_desc vars !! 179%nat = Some CR)).
Proof.
  unfold extractDescription. intros (vars & Hsel & [= <- _ _])%rbind_Ok.
  exists vars. split; [done|]. split; [done|].
  destruct (dropCR_spec (v_desc vars)) as [(Hl & pre & Hd & Hp)|(Hl & Hd)].
  - split; [done|]. split; [|apply trimTitle_last_CR].
    intros pre' Hd'. rewrite Hd' in Hd. by apply app_inj_tail in Hd as [-> _].
  - split; [done|]. split; [|apply trimTitle_last_CR].
    intros pre' Hd'. rewrite Hd', last_snoc in Hl. done.
Qed.

(** C7.  The title returned has at most 180 bytes; when the selected
    title (rendered by a format, or the header line) has more, the title
    returned is its first 180 bytes. *)
Theorem title_at_most_180 (output : bytes) (o : oops)
    (title rep : bytes) (f : oopsFormat) :
  extractDescription Sprintf output o = Ok (title, rep, f) ->
  len title <= 180
  /\ exists vars,
       selectDescription Sprintf output o = Ok vars
       /\ (len (v_desc vars) > 180 ->
             title = sub (v_desc vars) 0 180 /\ len title = 180).
Proof.
  unfold extractDescription. intros (vars & Hsel & [= <- _ _])%rbind_Ok.
  split; [apply trimTitle_length|]. exists vars. split; [done|].
  apply trimTitle_long.
Qed.

(** C9, amended.  After the loop over the formats, the fallback is taken
    exactly when the rendered title is empty.  A non-empty title is
    returned (adjusted by [trimTitle]) with the report and format of the
    winner.  With an empty title, also when a format matched, title and
    report are those that [extractDescription] returns for the signature
    without formats: the line that starts at the header, adjusted by
    [trimTitle], and the output from the header on, or a panic when the
    header does not occur; the format of the winner is kept. *)
Theorem fallback_iff_rendered_title_empty (output : bytes) (o : oops)
    (vars : extractVars) :
  formatLoop Sprintf output (formats o) initVars = Ok vars ->
  (v_desc vars <> [] ->
     extractDescription Sprintf output o
     = Ok (trimTitle (v_desc vars), v_report vars, v_format vars))
  /\ (v_desc vars = [] ->
        titleAndReport (extractDescription Sprintf output o)
        = titleAndReport (extractDescription Sprintf output (withoutFormats o))
        /\ (forall pre post line,
              firstOccurrence output (header o) pre post ->
              firstLine (header o ++ post) line ->
              extractDescription Sprintf output o
              = Ok (trimTitle line, header o ++ post, v_format vars))
        /\ (~ contains output (header o) ->
              extractDescription Sprintf output o = Panic "non matching oops")).
Proof.
  intros Hloop. split; [by apply extractDescription_rendered|].
  intros Hd. split; [|split].
  - unfold extractDescription, selectDescription. rewrite Hloop. simpl.
    unfold headerFallback. rewrite Hd. simpl.
    destruct (decide (len (@nil byte) = 0)) as [_|?]; [|done].
    by destruct (decide (Index output (header o) = -1)).
  - intros pre post line. by apply extractDescription_fallback.
  - by apply (extractDescription_panics _ _ _ vars).
Qed.
End ExtractorClaims.

(** *** The extractor on concrete outputs *)

Ltac inv_match H :=
  let re := fresh "re" in let m := fresh "m" in
  let Ht := fresh "Ht" in let Hm := fresh "Hm" in let Hq := fresh "Hq" in
  destruct H as (re & m & Ht & Hm & Hq);
  cbn in Ht; injection Ht as <-; vm_compute in Hm; injection Hm as <-;
  cbn in Hq; injection Hq as <-.

Lemma earliest_match_wins_witness :
  (forall vars,
     formatLoop SprintfModel kasanOutput (formats kasanOops) initVars = Ok vars ->
     v_startPos vars = 3
     /\ v_format vars = mkFormat (literal (bytesOf "KASAN")) (bytesOf "kasan")
     /\ v_report vars = from kasanOutput 3)
  /\ (forall title rep f,
        extractDescription SprintfModel kasanOutput kasanOops = Ok (title, rep, f) ->
        f = mkFormat (literal (bytesOf "KASAN")) (bytesOf "kasan")
        /\ exists vars,
             formatLoop SprintfModel kasanOutput (formats kasanOops) initVars = Ok vars
             /\ (v_desc vars <> [] ->
                   title = trimTitle (v_desc vars) /\ rep = from kasanOutput 3))
  /\ (Forall (wellBehaved kasanOutput) (formats kasanOops) ->
        exists vars,
          formatLoop SprintfModel kasanOutput (formats kasanOops) initVars = Ok vars
          /\ (v_desc vars <> [] \/ contains kasanOutput (header kasanOops) ->
                exists title rep f,
                  extractDescription SprintfModel kasanOutput kasanOops
                  = Ok (title, rep, f))).
Proof.
  apply (earliest_match_wins SprintfModel kasanOutput kasanOops
           1 (mkFormat (literal (bytesOf "KASAN")) (bytesOf "kasan")) 3).
  split; [done|]. split.
  - eexists _, _. split; [done|]. split; [by vm_compute|done].
  - intros [|[|[|j]]] g q Hj Hq; cbn in Hj; try done;
      injection Hj as <-; inv_match Hq.
    + left. lia.
    + right. split; [done|lia].
    + right. split; [done|lia].
Defined.

(** The scenario of the claim, evaluated. *)
Example earliest_match_example :
  extractDescription SprintfModel kasanOutput kasanOops
  = Ok (bytesOf "kasan", bytesOf "KASAN BUG",
        mkFormat (literal (bytesOf "KASAN")) (bytesOf "kasan")).
Proof. by vm_compute. Qed.

(** C1 as stated fails: on [xx KASAN BUG] the format [KASAN] wins, at
    offset 3, but the format in front of it matches at offset 9 with a
    group that takes no part in the match, becomes the candidate first,
    and [extractDescription] returns nothing; with the two formats in the
    other order it returns the winner. *)
Lemma winner_not_returned :
  winner kasanOutput (formats optionalFirstOops) 1
    (mkFormat (literal (bytesOf "KASAN")) (bytesOf "kasan")) 3
  /\ extractDescription SprintfModel kasanOutput optionalFirstOops
     = Panic "slice bounds out of range"
  /\ ~ (exists t rep f,
          extractDescription SprintfModel kasanOutput optionalFirstOops = Ok (t, rep, f))
  /\ extractDescription SprintfModel kasanOutput optionalLastOops
     = Ok (bytesOf "kasan", bytesOf "KASAN BUG",
           mkFormat (literal (bytesOf "KASAN")) (bytesOf "kasan")).
Proof.
  split.
  { split; [done|]. split.
    - eexists _, _. split; [done|]. split; [by vm_compute|done].
    - intros [|[|j]] g q Hj Hq; cbn in Hj; try done;
        injection Hj as <-; inv_match Hq.
      + left. lia.
      + right. split; [done|lia]. }
  split; [by vm_compute|]. split; [|by vm_compute].
  intros (t & rep & f & H). vm_compute in H. discriminate H.
Qed.


Lemma fallback_title_witness :
  (contains panicOutput (header panicOops) ->
     exists pre post line,
       firstOccurrence panicOutput (header panicOops) pre post
       /\ firstLine (header panicOops ++ post) line
       /\ extractDescription SprintfModel panicOutput panicOops
          = Ok (trimTitle line, header panicOops ++ post, zeroFormat))
  /\ (~ contains panicOutput (header panicOops) ->
        extractDescription SprintfModel panicOutput panicOops
        = Panic "non matching oops").
Proof.
  apply (fallback_title SprintfModel panicOutput panicOops). apply Forall_nil_2.
Defined.

(** The scenario of the specification, evaluated. *)
Example panic_scenario :
  containsCrash panicOutput [panicOops] [] = true
  /\ extractDescription SprintfModel panicOutput panicOops
     = Ok (bytesOf "KERNEL PANIC: null deref at 0xdead",
           from panicOutput (Index panicOutput (bytesOf "KERNEL PANIC")),
           zeroFormat)
  /\ containsCrash panicOutput [panicOops] [anchored (bytesOf "KERNEL PANIC")] = false.
Proof. by vm_compute. Qed.

(** C3 as stated fails: the line that starts at the header is [HDR\r], the
    title returned is [HDR]; no first line of the report is the title. *)
Lemma fallback_title_is_adjusted :
  Forall (fun f => exists re, title f = Some re
                              /\ FindSubmatchIndex re hdrOutputCR = None)
    (formats hdrOops)
  /\ firstOccurrence hdrOutputCR (header hdrOops) [] [CR; LF]
  /\ firstLine (header hdrOops ++ [CR; LF]) (bytesOf "HDR" ++ [CR])
  /\ extractDescription SprintfModel hdrOutputCR hdrOops
     = Ok (bytesOf "HDR", hdrOutputCR, zeroFormat)
  /\ ~ (exists pre post line f,
          firstOccurrence hdrOutputCR (header hdrOops) pre post
          /\ firstLine (header hdrOops ++ post) line
          /\ extractDescription SprintfModel hdrOutputCR hdrOops
             = Ok (line, header hdrOops ++ post, f)).
Proof.
  split; [apply Forall_nil_2|]. split.
  { split; [done|]. intros pre' post' _. rewrite len_nil. apply len_nonneg. }
  split.
  { split; [|right; by exists []].
    vm_compute. intros H. repeat (apply elem_of_cons in H as [H|H]; [done|]).
    by apply elem_of_nil in H. }
  split; [by vm_compute|].
  intros (pre & post & line & f & _ & [Hno Hline] & Hret).
  vm_compute in Hret. injection Hret as <- <- _.
  destruct Hline as [Hl|[rest Hl]]; vm_compute in Hl; congruence.
Qed.


(** C6 as stated fails: a header line that ends with two carriage returns
    keeps one of them. *)
Lemma title_ends_with_CR :
  extractDescription SprintfModel hdrOutputCRCR hdrOops
  = Ok (bytesOf "HDR" ++ [CR], hdrOutputCRCR, zeroFormat)
  /\ last (bytesOf "HDR" ++ [CR]) = Some CR.
Proof. by vm_compute. Qed.

Lemma title_trailing_CR_witness :
  exists vars,
    selectDescription SprintfModel hdrOutputCRCR hdrOops = Ok vars
    /\ bytesOf "HDR" ++ [CR] = truncate (dropCR (v_desc vars))
    /\ (last (v_desc vars) <> Some CR -> dropCR (v_desc vars) = v_desc vars)
    /\ (forall pre, v_desc vars = pre ++ [CR] -> dropCR (v_desc vars) = pre)
    /\ (last (bytesOf "HDR" ++ [CR]) = Some CR ->
          (exists pre, v_desc vars = pre ++ [CR; CR])
          \/ (len (v_desc vars) > maxDescLen
              /\ v_desc vars !! 179%nat = Some CR)).
Proof.
  apply (title_trailing_CR SprintfModel hdrOutputCRCR hdrOops
           (bytesOf "HDR" ++ [CR]) hdrOutputCRCR zeroFormat).
  reflexivity.
Defined.

Lemma title_at_most_180_witness :
  len (bytesOf "KERNEL PANIC: null deref at 0xdead") <= 180
  /\ exists vars,
       selectDescription SprintfModel panicOutput panicOops = Ok vars
       /\ (len (v_desc vars) > 180 ->
             bytesOf "KERNEL PANIC: null deref at 0xdead" = sub (v_desc vars) 0 180
             /\ len (bytesOf "KERNEL PANIC: null deref at 0xdead") = 180).
Proof.
  apply (title_at_most_180 SprintfModel panicOutput panicOops
           (bytesOf "KERNEL PANIC: null deref at 0xdead")
           (from panicOutput 4) zeroFormat).
  reflexivity.
Defined.

(** A title of 200 bytes is cut to its first 180. *)
Example long_title_truncated :
  extractDescription SprintfModel longOutput hdrOops
  = Ok (bytesOf "HDR" ++ replicate 177 "a"%byte, longOutput, zeroFormat).
Proof. by vm_compute. Qed.

Lemma fallback_iff_rendered_title_empty_witness :
  (@nil byte <> [] ->
     extractDescription SprintfModel emptyTemplateOutput emptyTemplateOops
     = Ok (trimTitle [], bytesOf "X", mkFormat (literal (bytesOf "X")) []))
  /\ (@nil byte = [] ->
        titleAndReport (extractDescription SprintfModel emptyTemplateOutput emptyTemplateOops)
        = titleAndReport (extractDescription SprintfModel emptyTemplateOutput
                            (withoutFormats emptyTemplateOops))
        /\ (forall pre post line,
              firstOccurrence emptyTemplateOutput (header emptyTemplateOops) pre post ->
              firstLine (header emptyTemplateOops ++ post) line ->
              extractDescription SprintfModel emptyTemplateOutput emptyTemplateOops
              = Ok (trimTitle line, header emptyTemplateOops ++ post,
                    mkFormat (literal (bytesOf "X")) []))
        /\ (~ contains emptyTemplateOutput (header emptyTemplateOops) ->
              extractDescription SprintfModel emptyTemplateOutput emptyTemplateOops
              = Panic "non matching oops")).
Proof.
  apply (fallback_iff_rendered_title_empty SprintfModel emptyTemplateOutput
           emptyTemplateOops
           {| v_startPos := 4; v_desc := []; v_report := bytesOf "X";
              v_format := mkFormat (literal (bytesOf "X")) [] |}).
  reflexivity.
Defined.

(** The format with the empty template matches at offset 4, and what is
    returned is the header line and the output from the header on. *)
Example empty_template_falls_back :
  matchesAt emptyTemplateOutput (mkFormat (literal (bytesOf "X")) []) 4
  /\ extractDescription SprintfModel emptyTemplateOutput emptyTemplateOops
     = Ok (bytesOf "HDR X", emptyTemplateOutput, mkFormat (literal (bytesOf "X")) []).
Proof.
  split; [|by vm_compute].
  eexists _, _. split; [done|]. split; [by vm_compute|done].
Qed.

(** C9 as stated fails in the same way as C3: the format with the empty
    template matches at offset 5 and the fallback is taken, the line that
    starts at the header is [HDR\r], and the title returned is [HDR]. *)
Lemma fallback_after_match_is_adjusted :
  matchesAt emptyTemplateOutputCR (mkFormat (literal (bytesOf "X")) []) 5
  /\ formatLoop SprintfModel emptyTemplateOutputCR (formats emptyTemplateOops) initVars
     = Ok {| v_startPos := 5; v_desc := []; v_report := bytesOf "X";
             v_format := mkFormat (literal (bytesOf "X")) [] |}
  /\ firstOccurrence emptyTemplateOutputCR (header emptyTemplateOops) []
       ([CR; LF] ++ bytesOf "X")
  /\ firstLine (header emptyTemplateOops ++ [CR; LF] ++ bytesOf "X") (bytesOf "HDR" ++ [CR])
  /\ extractDescription SprintfModel emptyTemplateOutputCR emptyTemplateOops
     = Ok (bytesOf "HDR", emptyTemplateOutputCR, mkFormat (literal (bytesOf "X")) [])
  /\ ~ (exists pre post line f,
          firstOccurrence emptyTemplateOutputCR (header emptyTemplateOops) pre post
          /\ firstLine (header emptyTemplateOops ++ post) line
          /\ extractDescription SprintfModel emptyTemplateOutputCR emptyTemplateOops
             = Ok (line, header emptyTemplateOops ++ post, f)).
Proof.
  split.
  { eexists _, _. split; [done|]. split; [by vm_compute|done]. }
  split; [by vm_compute|]. split.
  { split; [done|]. intros pre' post' _. rewrite len_nil. apply len_nonneg. }
  split.
  { split; [|right; by exists (bytesOf "X")].
    vm_compute. intros H. repeat (apply elem_of_cons in H as [H|H]; [done|]).
    by apply elem_of_nil in H. }
  split; [by vm_compute|].
  intros (pre & post & line & f & _ & [Hno Hline] & Hret).
  vm_compute in Hret. injection Hret as <- <- _.
  destruct Hline as [Hl|[rest Hl]]; vm_compute in Hl; congruence.
Qed.

(** * Further properties, beyond the claims *)

(** ** Crash detector *)

(** X1.  What [matchOops] returns, when it is not [-1], is the offset of
    the first occurrence of the header in the line: the header stands at
    that offset, inside the line, no occurrence starts before it, and no
    suppression or ignore pattern matches the line. *)
Theorem matchOops_header_offset (line : bytes) (o : oops) (ignores : list Regexp) (r : Z) :
  matchOops line o ignores = r -> r <> -1 ->
  0 <= r /\ r + len (header o) <= len line
  /\ sub line r (r + len (header o)) = header o
  /\ (forall pre post, line = pre ++ header o ++ post -> r <= len pre)
  /\ anyMatch (suppressions o) line = false
  /\ anyMatch ignores line = false.
Proof.
  unfold matchOops. intros Hr Hne.
  destruct (decide (Index line (header o) = -1)) as [?|Hfound]; [congruence|].
  destruct (anyMatch (suppressions o) line) eqn:Hs; [congruence|].
  destruct (anyMatch ignores line) eqn:Hi; [congruence|].
  apply Index_found, Index_first in Hfound as (pre & post & Hline & Hidx & Hmin).
  rewrite Hidx in Hr. subst r.
  pose proof (len_nonneg pre). pose proof (len_nonneg post).
  split; [lia|]. split.
  { rewrite Hline, !len_app. lia. }
  split.
  { rewrite Hline. unfold sub, len.
    replace (Z.to_nat (Z.of_nat (length pre) + Z.of_nat (length (header o))
                       - Z.of_nat (length pre))) with (length (header o)) by lia.
    rewrite Nat2Z.id, drop_app_length. by rewrite take_app_length. }
  split; [|done]. exact Hmin.
Qed.

Lemma matchOops_header_offset_witness :
  0 <= 2 /\ 2 + len (header panicOops) <= len panicLine
  /\ sub panicLine 2 (2 + len (header panicOops)) = header panicOops
  /\ (forall pre post, panicLine = pre ++ header panicOops ++ post -> 2 <= len pre)
  /\ anyMatch (suppressions panicOops) panicLine = false
  /\ anyMatch [] panicLine = false.
Proof.
  apply (matchOops_header_offset panicLine panicOops [] 2); [reflexivity|lia].
Defined.

(** X2.  Console output can be scanned piece by piece, as long as the
    pieces end at line ends: when [a] is empty or ends with a newline,
    [a ++ b] contains a crash exactly when [a] or [b] does. *)
Theorem containsCrash_app (a b : bytes) (oopses : list oops) (ignores : list Regexp) :
  a = [] \/ last a = Some LF ->
  containsCrash (a ++ b) oopses ignores
  = containsCrash a oopses ignores || containsCrash b oopses ignores.
Proof.
  intros Ha. rewrite !containsCrash_existsb, lines_app, existsb_app; [done|].
  destruct Ha as [->|Ha]; [by left|right].
  destruct a as [|x a] using rev_ind; [done|].
  rewrite last_snoc in Ha. injection Ha as ->. by exists a.
Qed.

Lemma containsCrash_app_witness :
  containsCrash ((bytesOf "foo" ++ [LF]) ++ panicLine) [panicOops] []
  = containsCrash (bytesOf "foo" ++ [LF]) [panicOops] []
    || containsCrash panicLine [panicOops] [].
Proof.
  apply (containsCrash_app (bytesOf "foo" ++ [LF]) panicLine [panicOops] []).
  right. reflexivity.
Defined.

(** X3.  When the header of no signature occurs anywhere in the output,
    [containsCrash] returns [false], whatever the patterns are. *)
Theorem containsCrash_header_absent (output : bytes) (oopses : list oops)
    (ignores : list Regexp) :
  (forall o, o ∈ oopses -> ~ contains output (header o)) ->
  containsCrash output oopses ignores = false.
Proof.
  intros H. apply not_true_is_false.
  intros (line & o & Hl & Ho & Hc & _)%containsCrash_accepts.
  apply (H o Ho). eapply contains_trans; [|exact Hc]. by apply lines_elem_contains.
Qed.

Lemma containsCrash_header_absent_witness :
  containsCrash (bytesOf "foo" ++ [LF]) [panicOops] [] = false.
Proof.
  apply (containsCrash_header_absent (bytesOf "foo" ++ [LF]) [panicOops] []).
  intros o Ho. apply list_elem_of_singleton in Ho. subst o.
  intros H. apply Index_found in H. vm_compute in H. apply H. reflexivity.
Defined.

(** X4.  The detector works line by line, and a line holds no newline: a
    signature whose header contains a newline is never detected, even
    when the header stands in the output. *)
Theorem containsCrash_header_with_LF (output : bytes) (oopses : list oops)
    (ignores : list Regexp) :
  (forall o, o ∈ oopses -> LF ∈ header o) ->
  containsCrash output oopses ignores = false.
Proof.
  intros H. apply not_true_is_false.
  intros (line & o & Hl & Ho & Hc & _)%containsCrash_accepts.
  apply (lines_elem_no_LF _ _ Hl). eapply contains_LF; [exact Hc|]. by apply H.
Qed.

Lemma containsCrash_header_with_LF_witness :
  containsCrash (header twoLineOops ++ [LF]) [twoLineOops] [] = false.
Proof.
  apply (containsCrash_header_with_LF (header twoLineOops ++ [LF]) [twoLineOops] []).
  intros o Ho. apply list_elem_of_singleton in Ho. subst o.
  right. left.
Defined.

(** X5.  Detection is monotone: a crash found with some signatures and
    ignore patterns is still found with more signatures, and with fewer
    ignore patterns.  The order and the repetitions in the two lists play
    no part. *)
Theorem containsCrash_monotone (output : bytes) (oopses oopses' : list oops)
    (ignores ignores' : list Regexp) :
  oopses ⊆ oopses' -> ignores' ⊆ ignores ->
  containsCrash output oopses ignores = true ->
  containsCrash output oopses' ignores' = true.
Proof.
  intros Ho Hi (line & o & Hl & Hin & Hc & Hs & Hig)%containsCrash_accepts.
  apply containsCrash_accepts. exists line, o.
  split; [done|]. split; [by apply Ho|]. split; [done|]. split; [done|].
  intros re Hre. apply Hig. by apply Hi.
Qed.

Lemma containsCrash_monotone_witness :
  containsCrash panicOutput [hdrOops; panicOops] [] = true.
Proof.
  apply (containsCrash_monotone panicOutput [panicOops] [hdrOops; panicOops]
           [anchored (bytesOf "zzz")] []).
  - intros o Ho. right. exact Ho.
  - intros re Hre. apply elem_of_nil in Hre. destruct Hre.
  - reflexivity.
Defined.

(** X6.  The ignore patterns act as suppressions shared by all the
    signatures: [matchOops] and [containsCrash] give the same result when
    the ignore patterns are moved to the end of every signature's
    suppressions. *)
Theorem ignores_are_suppressions (ignores : list Regexp) :
  (forall line o,
     matchOops line o ignores = matchOops line (withSuppressions o ignores) [])
  /\ (forall output oopses,
        containsCrash output oopses ignores
        = containsCrash output (map (fun o => withSuppressions o ignores) oopses) []).
Proof.
  split.
  - intros line o. apply matchOops_withSuppressions.
  - intros output oopses. rewrite !containsCrash_existsb.
    induction (lines output) as [|l ls IH]; [done|].
    cbn [existsb]. by rewrite IH, <- anyOops_withSuppressions.
Qed.

(** ** Detector and extractor together *)

Section ExtractorExtras.
Variable Sprintf : bytes -> list bytes -> bytes.

(** X7.  What the detector finds, the extractor can describe: when
    [containsCrash] returns [true], the header of one of the signatures
    occurs in the output, and [extractDescription] with that signature
    returns a result, without the panic for a header that is missing,
    provided its title patterns keep to the contract of the regexp
    library. *)
Theorem detected_is_extractable (output : bytes) (oopses : list oops)
    (ignores : list Regexp) :
  containsCrash output oopses ignores = true ->
  exists o, o ∈ oopses
    /\ contains output (header o)
    /\ (Forall (wellBehaved output) (formats o) ->
          exists t rep f, extractDescription Sprintf output o = Ok (t, rep, f)).
Proof.
  intros (line & o & Hl & Ho & Hc & _)%containsCrash_accepts.
  exists o. split; [done|].
  assert (contains output (header o)) as Hcont.
  { eapply contains_trans; [|exact Hc]. by apply lines_elem_contains. }
  split; [done|]. intros Hwb. by apply extractDescription_returns.
Qed.

(** ** Crash extractor *)

(** X8.  The report that [extractDescription] returns is a suffix of the
    output: it is [output[p:]] for an offset [p] inside the output, and
    at [p] either the title pattern of the returned format matches or the
    header of the signature stands. *)
Theorem report_is_suffix (output : bytes) (o : oops) (t rep : bytes) (f : oopsFormat) :
  extractDescription Sprintf output o = Ok (t, rep, f) ->
  exists p, 0 <= p <= len output /\ rep = from output p
    /\ (exists pre, output = pre ++ rep /\ len pre = p)
    /\ (matchesAt output f p \/ exists post, rep = header o ++ post).
Proof.
  intros (vars & vars2 & Hloop & Hfb & -> & -> & ->)%extractDescription_Ok.
  assert (forall p, 0 <= p <= len output ->
            exists pre, output = pre ++ from output p /\ len pre = p) as Hsplit.
  { intros p Hp. exists (take (Z.to_nat p) output). unfold from.
    rewrite take_drop. split; [done|]. unfold len in *. rewrite length_take. lia. }
  destruct (decide (v_desc vars = [])) as [Hempty|Hne].
  - destruct (headerFallback_Ok_taken _ _ _ _ Hfb Hempty)
      as (pre & post & line & [Hout Hmin] & Hline & ->). cbn.
    pose proof (len_nonneg pre). pose proof (len_nonneg (header o ++ post)).
    assert (from output (len pre) = header o ++ post) as Hfrom
      by (by rewrite Hout, from_app_length).
    exists (len pre). split; [rewrite Hout, len_app; lia|].
    split; [done|]. split; [by exists pre|]. right. by exists post.
  - rewrite headerFallback_skipped in Hfb by done. injection Hfb as <-.
    apply formatLoop_Ok in Hloop as [[-> _]|Hwin]; [done|].
    destruct Hwin as (i & g & p & re & m & args & Hi & Ht & Hm & Hp & _ & _ & Hr & -> & _).
    cbn. exists p. split; [done|]. split; [done|].
    split; [by apply Hsplit|]. left. by exists re, m.
Qed.

(** X9.  On the fallback path, taken when the rendered title is empty,
    the title returned is a prefix of the report returned and holds no
    newline, and the report starts with the header.  When the header holds
    no newline, has at most 180 bytes and does not end with a carriage
    return, the title starts with the header. *)
Theorem fallback_title_shape (output : bytes) (o : oops) (vars : extractVars)
    (t rep : bytes) (f : oopsFormat) :
  formatLoop Sprintf output (formats o) initVars = Ok vars ->
  v_desc vars = [] ->
  extractDescription Sprintf output o = Ok (t, rep, f) ->
  (exists rest, rep = t ++ rest)
  /\ (LF ∉ t)
  /\ (exists post, rep = header o ++ post)
  /\ (LF ∉ header o -> len (header o) <= 180 -> last (header o) <> Some CR ->
        exists rest, t = header o ++ rest).
Proof.
  intros Hloop Hempty (vars' & vars2 & Hloop' & Hfb & -> & -> & ->)%extractDescription_Ok.
  rewrite Hloop in Hloop'. injection Hloop' as <-.
  destruct (headerFallback_Ok_taken _ _ _ _ Hfb Hempty)
    as (pre & post & line & _ & [HnoLF Hline] & ->). cbn.
  destruct (trimTitle_prefix line) as (r1 & Hr1).
  split; [|split; [|split]].
  - destruct Hline as [->|(rest & ->)].
    + by exists r1.
    + exists (r1 ++ LF :: rest). by rewrite app_assoc, <- Hr1.
  - intros Hin. apply HnoLF. rewrite Hr1, elem_of_app. by left.
  - by exists post.
  - intros Hhdr Hlen Hlast.
    assert (exists q, line = header o ++ q) as (q & ->).
    { destruct Hline as [<-|(rest & Heq)]; [by exists post|].
      apply app_eq_inv in Heq as [(k & Hh & Hp)|(k & Hl & Hp)]; [|by exists k].
      destruct k as [|c k]; [exists []; rewrite app_nil_r in *; done|].
      injection Hp as <- _. exfalso. apply Hhdr.
      rewrite Hh. set_solver. }
    by apply trimTitle_keeps_prefix.
Qed.

(** X10.  The order of the formats of a signature plays no part when no
    two of them match at the same offset: [extractDescription] returns the
    same for two signatures with the same header whose formats are a
    permutation of each other, provided the title patterns keep to the
    contract of the regexp library. *)
Theorem formats_order_irrelevant (output : bytes) (o o' : oops) :
  header o' = header o ->
  formats o ≡ₚ formats o' ->
  Forall (wellBehaved output) (formats o) ->
  (forall f g p, f ∈ formats o -> g ∈ formats o ->
     matchesAt output f p -> matchesAt output g p -> f = g) ->
  extractDescription Sprintf output o' = extractDescription Sprintf output o.
Proof.
  intros Hh Hperm Hwb Hd. unfold extractDescription, selectDescription.
  rewrite (formatLoop_permutation Sprintf output (formats o) (formats o')) by done.
  destruct (formatLoop _ _ _ _) as [vars|msg]; [|done]. cbn.
  unfold headerFallback. by rewrite Hh.
Qed.

(** X11.  A capture group that takes no part in the match of the format
    that becomes the candidate makes [extractDescription] panic: the
    regexp library reports such a group with the indices [-1], and
    [output[-1:...]] is out of range.  [pre] are the formats in front of
    that format, [vars] the variables of the loop after them. *)
Theorem unmatched_group_panics (output : bytes) (o : oops)
    (pre : list oopsFormat) (f : oopsFormat) (fs : list oopsFormat)
    (vars : extractVars) (re : Regexp) (m : list Z) (p : Z) (k : nat) (hi : Z) :
  formats o = pre ++ f :: fs ->
  formatLoop Sprintf output pre initVars = Ok vars ->
  title f = Some re -> FindSubmatchIndex re output = Some m ->
  m !! 0%nat = Some p ->
  v_startPos vars = -1 \/ p < v_startPos vars ->
  m !! (2 * k + 2)%nat = Some (-1) -> m !! (2 * k + 3)%nat = Some hi ->
  extractDescription Sprintf output o = Panic "slice bounds out of range".
Proof.
  intros Hfs Hpre Ht Hm Hp Hcand Hlo Hhi.
  unfold extractDescription, selectDescription.
  rewrite Hfs, formatLoop_app, Hpre. cbn [rbind formatLoop].
  unfold formatStep. rewrite Ht, Hm. unfold index_checked. rewrite Hp. cbn [rbind].
  destruct (decide _) as [[? ?]|_]; [lia|].
  rewrite (submatchArgs_unmatched_group output (drop 2 m) k (-1) hi); [done| | |lia].
  - rewrite lookup_drop. by replace (2 + 2 * k)%nat with (2 * k + 2)%nat by lia.
  - rewrite lookup_drop. by replace (2 + (2 * k + 1))%nat with (2 * k + 3)%nat by lia.
Qed.

End ExtractorExtras.

Lemma detected_is_extractable_witness :
  exists o, o ∈ [panicOops]
    /\ contains panicOutput (header o)
    /\ (Forall (wellBehaved panicOutput) (formats o) ->
          exists t rep f, extractDescription SprintfModel panicOutput o = Ok (t, rep, f)).
Proof.
  apply (detected_is_extractable SprintfModel panicOutput [panicOops] []).
  reflexivity.
Defined.

Lemma report_is_suffix_witness :
  exists p, 0 <= p <= len kasanOutput /\ bytesOf "KASAN BUG" = from kasanOutput p
    /\ (exists pre, kasanOutput = pre ++ bytesOf "KASAN BUG" /\ len pre = p)
    /\ (matchesAt kasanOutput (mkFormat (literal (bytesOf "KASAN")) (bytesOf "kasan")) p
        \/ exists post, bytesOf "KASAN BUG" = header kasanOops ++ post).
Proof.
  apply (report_is_suffix SprintfModel kasanOutput kasanOops (bytesOf "kasan")).
  reflexivity.
Defined.

Lemma fallback_title_shape_witness :
  (exists rest, hdrOutputCR = bytesOf "HDR" ++ rest)
  /\ (LF ∉ bytesOf "HDR")
  /\ (exists post, hdrOutputCR = header hdrOops ++ post)
  /\ (LF ∉ header hdrOops -> len (header hdrOops) <= 180 ->
      last (header hdrOops) <> Some CR ->
        exists rest, bytesOf "HDR" = header hdrOops ++ rest).
Proof.
  apply (fallback_title_shape SprintfModel hdrOutputCR hdrOops initVars
           (bytesOf "HDR") hdrOutputCR zeroFormat); reflexivity.
Defined.

Lemma formats_order_irrelevant_witness :
  extractDescription SprintfModel kasanOutput kasanFirstOops
  = extractDescription SprintfModel kasanOutput bugFirstOops.
Proof.
  apply (formats_order_irrelevant SprintfModel kasanOutput bugFirstOops kasanFirstOops).
  - reflexivity.
  - apply perm_swap.
  - repeat constructor; apply literal_wellBehaved.
  - intros f g p Hf Hg Hfp Hgp.
    apply elem_of_cons in Hf as [->|Hf]; [|apply list_elem_of_singleton in Hf as ->];
      (apply elem_of_cons in Hg as [->|Hg]; [|apply list_elem_of_singleton in Hg as ->]);
      try reflexivity; inv_match Hfp;
      destruct Hgp as (re & m & Ht & Hm & Hq);
      cbn in Ht; injection Ht as <-; vm_compute in Hm; injection Hm as <-;
      discriminate Hq.
Defined.

Lemma unmatched_group_panics_witness :
  extractDescription SprintfModel (bytesOf "a BUG") optionalGroupOops
  = Panic "slice bounds out of range".
Proof.
  apply (unmatched_group_panics SprintfModel (bytesOf "a BUG") optionalGroupOops
           [] (mkFormat optionalGroup (bytesOf "bug %s")) [] initVars
           optionalGroup [2; 5; -1; -1] 2 0 (-1)); try reflexivity.
  left. reflexivity.
Defined.

Section Rendered.
Variable Sprintf : bytes -> list bytes -> bytes.

(** X12.  The title of the main path.  For a format that wins: whenever
    [extractDescription] returns, the format returned is the winner, and
    the title rendered for it is [fmt.Sprintf] of its template and the
    captured groups of its match, in their order, the [k]-th operand being
    [output[m[2k+2]:m[2k+3]]]; when that rendering is not empty, the title
    returned is the rendering with one trailing carriage return dropped
    and cut to 180 bytes, and the report is the output from the match on.
    When every title pattern keeps to the contract of the regexp library
    with all its groups taking part in the match, [extractDescription]
    does return that result for a rendering that is not empty. *)
Theorem rendered_title (output : bytes) (o : oops) (i : nat) (g : oopsFormat) (p : Z) :
  winner output (formats o) i g p ->
  (forall t rep f,
     extractDescription Sprintf output o = Ok (t, rep, f) ->
     exists re m args,
       title g = Some re /\ FindSubmatchIndex re output = Some m
       /\ (2 * length args = length m - 2)%nat
       /\ (forall k lo hi,
             m !! (2 * k + 2)%nat = Some lo -> m !! (2 * k + 3)%nat = Some hi ->
             args !! k = Some (sub output lo hi))
       /\ f = g
       /\ (Sprintf (fmt g) args <> [] ->
             t = trimTitle (Sprintf (fmt g) args) /\ rep = from output p))
  /\ (Forall (wellBehaved output) (formats o) ->
        exists re m args,
          title g = Some re /\ FindSubmatchIndex re output = Some m
          /\ (2 * length args + 2 = length m)%nat
          /\ (forall k lo hi,
                m !! (2 * k + 2)%nat = Some lo -> m !! (2 * k + 3)%nat = Some hi ->
                args !! k = Some (sub output lo hi))
          /\ (Sprintf (fmt g) args <> [] ->
                extractDescription Sprintf output o
                = Ok (trimTitle (Sprintf (fmt g) args), from output p, g))).
Proof.
  intros (Hi & Hg & Hmin).
  assert (forall vars,
            formatLoop Sprintf output (formats o) initVars = Ok vars ->
            exists re m args,
              title g = Some re /\ FindSubmatchIndex re output = Some m
              /\ submatchArgs output (drop 2 m) = Ok args
              /\ vars = {| v_startPos := p; v_desc := Sprintf (fmt g) args;
                           v_report := from output p; v_format := g |}) as Hvars.
  { intros vars Hloop.
    destruct (formatLoop_Ok _ _ _ _ _ Hloop) as [[-> Hall]
      |(i' & g' & p' & re & m & args & Hi' & Ht & Hf & Hp & Ha & _ & Hr & -> & Hmin')].
    { destruct (Hall _ _ _ Hi Hg) as [Hsp _]. done. }
    assert (matchesAt output g' p') as Hg' by (by exists re, m).
    pose proof (Hmin _ _ _ Hi' Hg') as H1. pose proof (Hmin' _ _ _ Hi Hg) as H2.
    assert (p' = p /\ i' = i) as [-> ->] by lia.
    assert (g' = g) as -> by congruence.
    by exists re, m, args. }
  assert (forall m args k lo hi,
            submatchArgs output (drop 2 m) = Ok args ->
            m !! (2 * k + 2)%nat = Some lo -> m !! (2 * k + 3)%nat = Some hi ->
            args !! k = Some (sub output lo hi)) as Hgroups.
  { intros m args k lo hi Ha Hlo Hhi.
    destruct (submatchArgs_lookup _ _ _ Ha) as [_ Hall]. apply Hall; rewrite lookup_drop.
    - by replace (2 + 2 * k)%nat with (2 * k + 2)%nat by lia.
    - by replace (2 + (2 * k + 1))%nat with (2 * k + 3)%nat by lia. }
  split.
  - intros t rep f Hret.
    destruct (extractDescription_Ok Sprintf _ _ _ _ _ Hret)
      as (vars & vars2 & Hloop & Hfb & -> & -> & ->).
    destruct (Hvars vars Hloop) as (re & m & args & Ht & Hf & Ha & ->).
    exists re, m, args. split; [done|]. split; [done|].
    destruct (submatchArgs_lookup _ _ _ Ha) as [Hlen _].
    split; [by rewrite length_drop in Hlen|]. split; [intros k lo hi; by apply (Hgroups m args)|].
    apply headerFallback_Ok in Hfb as (_ & Hf2 & Hsame). cbn in Hf2, Hsame.
    split; [done|]. intros Hd. by rewrite (Hsame Hd).
  - intros Hwb.
    destruct (formatLoop_returns Sprintf output (formats o) initVars Hwb) as (vars & Hloop).
    destruct (Hvars vars Hloop) as (re & m & args & Ht & Hf & Ha & ->).
    exists re, m, args. split; [done|]. split; [done|].
    destruct (submatchArgs_lookup _ _ _ Ha) as [Hlen _].
    assert (2 <= length m)%nat as Hm2.
    { apply Forall_forall with (x := g) in Hwb; [|by eapply list_elem_of_lookup_2].
      destruct Hwb as (re' & Ht' & Hwf). rewrite Ht in Ht'. injection Ht' as <-.
      destruct (Hwf m Hf) as (p0 & e0 & gs & -> & _). cbn. lia. }
    split; [rewrite length_drop in Hlen; lia|]. split; [intros k lo hi; by apply (Hgroups m args)|].
    intros Hne. by rewrite (extractDescription_rendered _ _ _ _ Hloop).
Qed.

End Rendered.

Lemma rendered_title_witness :
  (forall t rep f,
     extractDescription SprintfModel bugWordOutput bugWordOops = Ok (t, rep, f) ->
     exists re m args,
       title (mkFormat bugWord (bytesOf "BUG in %s")) = Some re
       /\ FindSubmatchIndex re bugWordOutput = Some m
       /\ (2 * length args = length m - 2)%nat
       /\ (forall k lo hi,
             m !! (2 * k + 2)%nat = Some lo -> m !! (2 * k + 3)%nat = Some hi ->
             args !! k = Some (sub bugWordOutput lo hi))
       /\ f = (mkFormat bugWord (bytesOf "BUG in %s"))
       /\ (SprintfModel (fmt (mkFormat bugWord (bytesOf "BUG in %s"))) args <> [] ->
             t = trimTitle (SprintfModel (fmt (mkFormat bugWord (bytesOf "BUG in %s"))) args)
             /\ rep = from bugWordOutput 3))
  /\ (Forall (wellBehaved bugWordOutput) (formats bugWordOops) ->
        exists re m args,
          title (mkFormat bugWord (bytesOf "BUG in %s")) = Some re
          /\ FindSubmatchIndex re bugWordOutput = Some m
          /\ (2 * length args + 2 = length m)%nat
          /\ (forall k lo hi,
                m !! (2 * k + 2)%nat = Some lo -> m !! (2 * k + 3)%nat = Some hi ->
                args !! k = Some (sub bugWordOutput lo hi))
          /\ (SprintfModel (fmt (mkFormat bugWord (bytesOf "BUG in %s"))) args <> [] ->
                extractDescription SprintfModel bugWordOutput bugWordOops
                = Ok (trimTitle (SprintfModel (fmt (mkFormat bugWord (bytesOf "BUG in %s"))) args),
                      from bugWordOutput 3, (mkFormat bugWord (bytesOf "BUG in %s"))))).
Proof.
  apply (rendered_title SprintfModel bugWordOutput bugWordOops 0 (mkFormat bugWord (bytesOf "BUG in %s")) 3).
  split; [done|]. split.
  - eexists _, _. split; [done|]. split; [by vm_compute|done].
  - intros [|j] g q Hj Hq; cbn in Hj; try done.
    injection Hj as <-. inv_match Hq. right. split; [done|lia].
Defined.

(** The same scenario, evaluated: the group [foo] is the operand of the
    template. *)
Example rendered_title_example :
  extractDescription SprintfModel bugWordOutput bugWordOops
  = Ok (bytesOf "BUG in foo", bytesOf "BUG: foo bar",
        mkFormat bugWord (bytesOf "BUG in %s")).
Proof. by vm_compute. Qed.

(** ** Redactor *)

Section ReplaceExtras.
Variable slack : nat -> nat -> nat.

(** X13.  [replace] returns exactly when the range lies inside the buffer,
    [0 <= start <= end <= len(where)], whether or not the replacement
    shares storage with the buffer; for any other range it panics with a
    slice bound error. *)
Theorem replace_panics_iff (h : heap) (w wh : slice) (s e : Z) :
  valid h w -> valid h wh ->
  (0 <= s /\ s <= e /\ e <= Z.of_nat (slen w) ->
     exists res h', replace slack w s e wh h = Ok (res, h'))
  /\ (~ (0 <= s /\ s <= e /\ e <= Z.of_nat (slen w)) ->
        replace slack w s e wh h = Panic "slice bounds out of range").
Proof.
  intros Hw Hwh. split.
  - intros (Hs & Hse & He).
    destruct (replace_shape slack h w wh s e) as (a & -> & _); try done.
    destruct (decide _); eauto.
  - by apply replace_out_of_range.
Qed.

(** X14.  When the result fits the capacity of the buffer,
    [len(where) - (end - start) + len(what) <= cap(where)], [replace]
    works in place: the slice returned has the array, the offset and the
    capacity of [where] and the new length, no array is added, and every
    other array, and with it every slice stored elsewhere, is left as it
    was.  This holds whether or not the replacement shares storage with
    the buffer. *)
Theorem replace_in_place (h : heap) (w wh : slice) (s e : Z) :
  valid h w -> valid h wh ->
  0 <= s -> s <= e -> e <= Z.of_nat (slen w) ->
  Z.of_nat (slen w) - (e - s) + Z.of_nat (slen wh) <= Z.of_nat (scap w) ->
  exists res h',
    replace slack w s e wh h = Ok (res, h')
    /\ arr res = arr w /\ off res = off w /\ scap res = scap w
    /\ Z.of_nat (slen res) = Z.of_nat (slen w) - (e - s) + Z.of_nat (slen wh)
    /\ valid h' res
    /\ length h' = length h
    /\ (forall i, i <> arr w -> h' !! i = h !! i)
    /\ (forall x, valid h x -> arr x <> arr w ->
          valid h' x /\ contents h' x = contents h x).
Proof.
  intros Hw Hwh Hs Hse He Hroom.
  destruct (replace_shape slack h w wh s e) as (a & -> & Hlen); try done.
  specialize (Hlen Hroom).
  destruct (decide _) as [_|?]; [|done].
  eexists _, _. split; [reflexivity|]. cbn [arr off slen scap].
  split; [done|]. split; [done|]. split; [done|]. split; [lia|].
  destruct Hw as (Hw1 & Hw2 & Hw3).
  split; [|split; [|split]].
  - unfold valid. cbn [arr off slen scap].
    rewrite length_insert. split; [done|].
    rewrite (backing_insert_eq _ _ (arr w)) by done. rewrite Hlen. split; [done|lia].
  - by rewrite length_insert.
  - intros i Hi. by rewrite list_lookup_insert_ne.
  - intros x Hx Hne. split; [by apply valid_insert_ne|by apply contents_insert_ne].
Qed.

(** X15.  When the result does not fit the capacity of the buffer,
    [replace] does not work in place: the slice returned lies in a new
    array, the arrays that were there are all left as they were, so that
    the caller's [where] and [what] still hold their old bytes, and the
    slice returned holds the bytes in front of the range, the replacement
    and the bytes behind the range, also when the replacement shares
    storage with the buffer. *)
Theorem replace_reallocates (h : heap) (w wh : slice) (s e : Z) :
  valid h w -> valid h wh ->
  0 <= s -> s <= e -> e <= Z.of_nat (slen w) ->
  Z.of_nat (scap w) < Z.of_nat (slen w) - (e - s) + Z.of_nat (slen wh) ->
  exists res a,
    replace slack w s e wh h = Ok (res, h ++ [a])
    /\ arr res = length h
    /\ valid (h ++ [a]) res
    /\ contents (h ++ [a]) res
       = sub (contents h w) 0 s ++ contents h wh ++ from (contents h w) e
    /\ (forall x, valid h x ->
          valid (h ++ [a]) x /\ contents (h ++ [a]) x = contents h x).
Proof.
  intros Hw Hwh Hs Hse He Hfull.
  destruct (replace_fresh slack h w wh s e) as (res & h' & Hrun & Hv & Hc); try done.
  destruct (replace_shape slack h w wh s e) as (a & Hshape & _); try done.
  destruct (decide _) as [?|_]; [lia|].
  rewrite Hshape in Hrun. injection Hrun as <- <-.
  eexists _, a. split; [exact Hshape|]. split; [done|]. split; [done|].
  split; [done|]. intros x Hx. split; [by apply valid_app|by apply contents_app].
Qed.

(** X16.  A replacement can be undone: after [replace(where, s, e, what)],
    replacing the range [s : s + len(what)] of the result by the bytes
    that stood at [s:e], kept in a slice [old] stored apart, gives back
    the bytes of [where]. *)
Theorem replace_round_trip (h : heap) (w wh old : slice) (s e : Z) :
  valid h w -> valid h wh -> valid h old ->
  arr wh <> arr w -> arr old <> arr w ->
  0 <= s -> s <= e -> e <= Z.of_nat (slen w) ->
  contents h old = sub (contents h w) s e ->
  exists res h1 res2 h2,
    replace slack w s e wh h = Ok (res, h1)
    /\ replace slack res s (s + Z.of_nat (slen wh)) old h1 = Ok (res2, h2)
    /\ contents h2 res2 = contents h w.
Proof.
  intros Hw Hwh Hold Hne1 Hne2 Hs Hse He Hsaved.
  destruct (replace_separate slack h w wh s e) as (res & h1 & Hrun & Hv & Hc); try done.
  assert (valid h1 old /\ contents h1 old = contents h old /\ arr old <> arr res)
    as (Hold1 & Hc1 & Hne3).
  { destruct (replace_shape slack h w wh s e) as (a & Hshape & _); try done.
    rewrite Hshape in Hrun. destruct (decide _); injection Hrun as <- <-.
    - split; [by apply valid_insert_ne|]. split; [by apply contents_insert_ne|done].
    - split; [by apply valid_app|]. split; [by apply contents_app|].
      destruct Hold as (? & _). cbn. lia. }
  pose proof (length_contents _ _ Hw) as Lw.
  pose proof (length_contents _ _ Hwh) as Lwh.
  pose proof (length_contents _ _ Hv) as Lres.
  assert (len (sub (contents h w) 0 s) = s) as Lpre.
  { rewrite sub_0. unfold len. rewrite length_take. lia. }
  assert (Z.of_nat (slen res) = s + Z.of_nat (slen wh) + (Z.of_nat (slen w) - e)) as Lr.
  { rewrite <- Lres, Hc, !length_app. unfold len in Lpre. unfold from.
    rewrite length_drop. lia. }
  destruct (replace_separate slack h1 res old s (s + Z.of_nat (slen wh)))
    as (res2 & h2 & Hrun2 & Hv2 & Hc2); try done; try lia.
  exists res, h1, res2, h2. split; [done|]. split; [done|].
  rewrite Hc2, Hc1, Hsaved, Hc.
  rewrite sub_splice_l by done.
  replace (Z.of_nat (slen wh)) with (len (contents h wh)) by (unfold len; lia).
  rewrite from_splice_r by done.
  apply sub_split3; unfold len; lia.
Qed.

End ReplaceExtras.

Lemma replace_panics_iff_witness :
  (0 <= 1 /\ 1 <= 2 /\ 2 <= Z.of_nat (slen (firstBuffer (bytesOf "abcdef") (bytesOf "zz"))) ->
     exists res h',
       replace (fun _ _ => 0%nat) (firstBuffer (bytesOf "abcdef") (bytesOf "zz")) 1 2
         (secondBuffer (bytesOf "XYZ"))
         (twoBuffers (bytesOf "abcdef") (bytesOf "zz") (bytesOf "XYZ")) = Ok (res, h'))
  /\ (~ (0 <= 1 /\ 1 <= 2
         /\ 2 <= Z.of_nat (slen (firstBuffer (bytesOf "abcdef") (bytesOf "zz")))) ->
        replace (fun _ _ => 0%nat) (firstBuffer (bytesOf "abcdef") (bytesOf "zz")) 1 2
          (secondBuffer (bytesOf "XYZ"))
          (twoBuffers (bytesOf "abcdef") (bytesOf "zz") (bytesOf "XYZ"))
        = Panic "slice bounds out of range").
Proof.
  apply (replace_panics_iff (fun _ _ => 0%nat)
           (twoBuffers (bytesOf "abcdef") (bytesOf "zz") (bytesOf "XYZ"))
           (firstBuffer (bytesOf "abcdef") (bytesOf "zz"))
           (secondBuffer (bytesOf "XYZ")) 1 2);
    unfold valid, backing; cbn; lia.
Defined.

Lemma replace_in_place_witness :
  exists res h',
    replace (fun _ _ => 0%nat) (firstBuffer (bytesOf "abcdef") (bytesOf "zz")) 1 2
      (secondBuffer (bytesOf "XYZ"))
      (twoBuffers (bytesOf "abcdef") (bytesOf "zz") (bytesOf "XYZ")) = Ok (res, h')
    /\ arr res = arr (firstBuffer (bytesOf "abcdef") (bytesOf "zz"))
    /\ off res = off (firstBuffer (bytesOf "abcdef") (bytesOf "zz"))
    /\ scap res = scap (firstBuffer (bytesOf "abcdef") (bytesOf "zz"))
    /\ Z.of_nat (slen res)
       = Z.of_nat (slen (firstBuffer (bytesOf "abcdef") (bytesOf "zz"))) - (2 - 1)
         + Z.of_nat (slen (secondBuffer (bytesOf "XYZ")))
    /\ valid h' res
    /\ length h' = length (twoBuffers (bytesOf "abcdef") (bytesOf "zz") (bytesOf "XYZ"))
    /\ (forall i, i <> arr (firstBuffer (bytesOf "abcdef") (bytesOf "zz")) ->
          h' !! i = twoBuffers (bytesOf "abcdef") (bytesOf "zz") (bytesOf "XYZ") !! i)
    /\ (forall x,
          valid (twoBuffers (bytesOf "abcdef") (bytesOf "zz") (bytesOf "XYZ")) x ->
          arr x <> arr (firstBuffer (bytesOf "abcdef") (bytesOf "zz")) ->
          valid h' x
          /\ contents h' x
             = contents (twoBuffers (bytesOf "abcdef") (bytesOf "zz") (bytesOf "XYZ")) x).
Proof.
  apply (replace_in_place (fun _ _ => 0%nat)
           (twoBuffers (bytesOf "abcdef") (bytesOf "zz") (bytesOf "XYZ"))
           (firstBuffer (bytesOf "abcdef") (bytesOf "zz"))
           (secondBuffer (bytesOf "XYZ")) 1 2);
    unfold valid, backing; cbn; lia.
Defined.

Lemma replace_reallocates_witness :
  exists res a,
    replace (fun _ _ => 0%nat) (firstBuffer (bytesOf "abcdef") []) 1 2
      (secondBuffer (bytesOf "XYZ"))
      (twoBuffers (bytesOf "abcdef") [] (bytesOf "XYZ"))
    = Ok (res, twoBuffers (bytesOf "abcdef") [] (bytesOf "XYZ") ++ [a])
    /\ arr res = length (twoBuffers (bytesOf "abcdef") [] (bytesOf "XYZ"))
    /\ valid (twoBuffers (bytesOf "abcdef") [] (bytesOf "XYZ") ++ [a]) res
    /\ contents (twoBuffers (bytesOf "abcdef") [] (bytesOf "XYZ") ++ [a]) res
       = sub (contents (twoBuffers (bytesOf "abcdef") [] (bytesOf "XYZ"))
                (firstBuffer (bytesOf "abcdef") [])) 0 1
         ++ contents (twoBuffers (bytesOf "abcdef") [] (bytesOf "XYZ"))
              (secondBuffer (bytesOf "XYZ"))
         ++ from (contents (twoBuffers (bytesOf "abcdef") [] (bytesOf "XYZ"))
                    (firstBuffer (bytesOf "abcdef") [])) 2
    /\ (forall x, valid (twoBuffers (bytesOf "abcdef") [] (bytesOf "XYZ")) x ->
          valid (twoBuffers (bytesOf "abcdef") [] (bytesOf "XYZ") ++ [a]) x
          /\ contents (twoBuffers (bytesOf "abcdef") [] (bytesOf "XYZ") ++ [a]) x
             = contents (twoBuffers (bytesOf "abcdef") [] (bytesOf "XYZ")) x).
Proof.
  apply (replace_reallocates (fun _ _ => 0%nat)
           (twoBuffers (bytesOf "abcdef") [] (bytesOf "XYZ"))
           (firstBuffer (bytesOf "abcdef") [])
           (secondBuffer (bytesOf "XYZ")) 1 2);
    unfold valid, backing; cbn; lia.
Defined.

Lemma replace_round_trip_witness :
  exists res h1 res2 h2,
    replace (fun _ _ => 0%nat) (firstBuffer (bytesOf "abcdef") (bytesOf "zz")) 1 3
      (secondBuffer (bytesOf "XYZ"))
      (threeBuffers (bytesOf "abcdef") (bytesOf "zz") (bytesOf "XYZ") (bytesOf "bc"))
    = Ok (res, h1)
    /\ replace (fun _ _ => 0%nat) res 1
         (1 + Z.of_nat (slen (secondBuffer (bytesOf "XYZ"))))
         (thirdBuffer (bytesOf "bc")) h1 = Ok (res2, h2)
    /\ contents h2 res2
       = contents (threeBuffers (bytesOf "abcdef") (bytesOf "zz") (bytesOf "XYZ")
                     (bytesOf "bc"))
           (firstBuffer (bytesOf "abcdef") (bytesOf "zz")).
Proof.
  apply (replace_round_trip (fun _ _ => 0%nat)
           (threeBuffers (bytesOf "abcdef") (bytesOf "zz") (bytesOf "XYZ") (bytesOf "bc"))
           (firstBuffer (bytesOf "abcdef") (bytesOf "zz"))
           (secondBuffer (bytesOf "XYZ")) (thirdBuffer (bytesOf "bc")) 1 3);
    first [reflexivity | (unfold valid, backing; cbn; lia) | (cbn; lia)].
Defined.

(** ** Pattern templates *)

Section CompileExtras.
Variable MustCompile : bytes -> result Regexp.

(** X17.  [compile] expands every placeholder of a template and leaves the
    text around them as it is: for a template made of pieces of text
    without an opening brace and of the placeholders [{{ADDR}}], [{{PC}}],
    [{{FUNC}}] and [{{SRC}}], in any number and order, the expression that
    is compiled is the text with each placeholder replaced by its
    fragment. *)
Theorem compile_expands_placeholders (ps : list piece) :
  Forall plainText ps ->
  compile MustCompile (template ps) = MustCompile (expansion ps).
Proof.
  intros Hps. unfold compile.
  change (bytesOf "{{ADDR}}") with (placeholder ADDR).
  change (bytesOf "0x[0-9a-f]+") with (fragment ADDR).
  change (bytesOf "{{PC}}") with (placeholder PC).
  change (bytesOf "\[\<[0-9a-f]+\>\]") with (fragment PC).
  change (bytesOf "{{FUNC}}") with (placeholder FUNC).
  change (bytesOf "([a-zA-Z0-9_]+)(?:\.|\+)") with (fragment FUNC).
  change (bytesOf "{{SRC}}") with (placeholder SRC).
  change (bytesOf "([a-zA-Z0-9-_/.]+\.[a-z]+:[0-9]+)") with (fragment SRC).
  cbv zeta.
  assert (forall k qs, Forall plainText qs -> Forall plainText (map (substitute k) qs))
    as Hsub.
  { intros k qs Hq. apply Forall_fmap. eapply Forall_impl; [exact Hq|].
    intros p. apply plainText_substitute. }
  rewrite !ReplaceAll_template by auto.
  by rewrite template_all_substituted.
Qed.

(** X18.  A pattern in which none of the four placeholders occurs is
    compiled as it is written; braces that belong to the pattern, as in
    [a{2}], are not touched. *)
Theorem compile_without_placeholders (re : bytes) :
  ~ contains re (bytesOf "{{ADDR}}") -> ~ contains re (bytesOf "{{PC}}") ->
  ~ contains re (bytesOf "{{FUNC}}") -> ~ contains re (bytesOf "{{SRC}}") ->
  compile MustCompile re = MustCompile re.
Proof.
  intros H1 H2 H3 H4. unfold compile. cbv zeta.
  by rewrite 4!(ReplaceAll_absent re) by done.
Qed.

End CompileExtras.

Lemma compile_expands_placeholders_witness :
  compile compileAny
    (template [Text (bytesOf "BUG at "); Hole ADDR; Text (bytesOf " in "); Hole FUNC])
  = compileAny
      (expansion [Text (bytesOf "BUG at "); Hole ADDR; Text (bytesOf " in "); Hole FUNC]).
Proof.
  apply (compile_expands_placeholders compileAny
           [Text (bytesOf "BUG at "); Hole ADDR; Text (bytesOf " in "); Hole FUNC]).
  repeat constructor;
    (intros H; vm_compute in H;
     repeat (apply elem_of_cons in H as [H|H]; [discriminate H|]);
     apply elem_of_nil in H; destruct H).
Defined.

Lemma compile_without_placeholders_witness :
  compile compileAny (bytesOf "BUG: a{2}") = compileAny (bytesOf "BUG: a{2}").
Proof.
  apply (compile_without_placeholders compileAny (bytesOf "BUG: a{2}"));
    intros H; apply Index_found in H; vm_compute in H; apply H; reflexivity.
Defined.

(** ** Reporter construction *)

(** X19.  An empty [kernelObj] stands for an in-tree build: for every
    [os], [NewReporter] returns with an empty [kernelObj] what it returns
    when [kernelSrc] is passed as [kernelObj] too. *)
Theorem NewReporter_in_tree_default (Symbol : Type)
    (ctorAkaros ctorLinux ctorFreebsd ctorNetbsd ctorFuchsia ctorWindows : fn Symbol)
    (os kernelSrc : string) (symbols : gmap string (list Symbol))
    (ignores : list Regexp) :
  NewReporter Symbol ctorAkaros ctorLinux ctorFreebsd ctorNetbsd ctorFuchsia
    ctorWindows os kernelSrc "" symbols ignores
  = NewReporter Symbol ctorAkaros ctorLinux ctorFreebsd ctorNetbsd ctorFuchsia
      ctorWindows os kernelSrc kernelSrc symbols ignores.
Proof.
  unfold NewReporter. destruct (ctors _ _ _ _ _ _ _ !! os) as [ctor|]; [|done].
  destruct (decide (""%string = ""%string)) as [_|?]; [|done].
  by destruct (decide (kernelSrc = ""%string)).
Qed.
